(** * oss-fuzz-gen: the agent round handler and the experiment orchestrator

    A shallow embedding of [agent/base_agent.py] and [run_all_experiments.py]
    and the properties their specification states about them.

    Python [str] values are sequences of Unicode code points; they are
    modelled as lists of code points so that the library functions the code
    relies on ([str.strip], [str.splitlines], [str.join], [str.startswith],
    [re.search], [os.path.splitext], [os.path.join]) can be written out with
    their edge cases. *)

From Stdlib Require Import ZArith QArith Lia Ascii String.
From stdpp Require Import base tactics option list numbers strings pretty gmap.

Set Default Proof Using "Type".
Open Scope Z_scope.

(** ** Python strings *)

Module Py.

Definition char := N.
Definition str := list char.

(** A literal: the code points of an ASCII string constant of the source. *)
Definition lit (s : string) : str :=
  (λ c, N_of_ascii c) <$> list_ascii_of_string s.

Definition nl : char := 10%N.
Definition cr : char := 13%N.

(** [str.isspace] on one code point (the characters [str.strip] removes). *)
Definition is_space (c : char) : bool :=
  ((9 <=? c) && (c <=? 13) || (28 <=? c) && (c <=? 32)
   || (c =? 133) || (c =? 160) || (c =? 5760)
   || (8192 <=? c) && (c <=? 8202)
   || (c =? 8232) || (c =? 8233) || (c =? 8239) || (c =? 8287)
   || (c =? 12288))%N.

(** The line boundaries of [str.splitlines]. *)
Definition is_linebreak (c : char) : bool :=
  ((10 <=? c) && (c <=? 13) || (28 <=? c) && (c <=? 30)
   || (c =? 133) || (c =? 8232) || (c =? 8233))%N.

Fixpoint lstrip (s : str) : str :=
  match s with
  | c :: s' => if is_space c then lstrip s' else s
  | [] => []
  end.

Definition rstrip (s : str) : str := reverse (lstrip (reverse s)).

(** [s.strip()] *)
Definition strip (s : str) : str := rstrip (lstrip s).

(** [s.startswith(p)] *)
Fixpoint startswith (p s : str) : bool :=
  match p, s with
  | [], _ => true
  | a :: p', b :: s' => (a =? b)%N && startswith p' s'
  | _ :: _, [] => false
  end.

(** [s.endswith(p)] *)
Definition endswith (p s : str) : bool := startswith (reverse p) (reverse s).

(** [s.splitlines()]: the lines of [s] without their terminators. A carriage
    return followed by a line feed is one terminator, and a terminator at the
    very end of [s] does not open a further, empty line. *)
Fixpoint splitlines (s : str) : list str :=
  match s with
  | [] => []
  | c :: s' =>
      if is_linebreak c then
        [] :: match s' with
              | d :: s'' =>
                  if (c =? cr)%N && (d =? nl)%N then splitlines s''
                  else splitlines s'
              | [] => []
              end
      else
        match splitlines s' with
        | [] => [[c]]
        | l :: ls => (c :: l) :: ls
        end
  end.

(** [sep.join(parts)] *)
Fixpoint join (sep : str) (parts : list str) : str :=
  match parts with
  | [] => []
  | [p] => p
  | p :: ps => p ++ sep ++ join sep ps
  end.


(** A list of lines without its last line, if that line is empty. *)
Fixpoint drop_last_empty (lines : list str) : list str :=
  match lines with
  | [] => []
  | [l] => match l with [] => [] | _ => [l] end
  | l :: ls => l :: drop_last_empty ls
  end.

(** [w] occurs in [s] as a contiguous part. *)
Definition occurs_in (w s : str) : Prop := ∃ before after, s = before ++ w ++ after.

(** [s] neither starts nor ends with white space. *)
Definition trimmed (s : str) : Prop :=
  (∀ c, head s = Some c → is_space c = false)
  ∧ (∀ c, last s = Some c → is_space c = false).

(** A run of white space. *)
Definition all_space (s : str) : Prop := Forall (λ c, is_space c = true) s.

(** A line holds no line boundary. *)
Definition no_linebreak (l : str) : Prop := Forall (λ c, is_linebreak c = false) l.

(** [str(n)] for an [int]. *)
Definition str_of_int (n : Z) : str := lit (pretty n).

(** [bool(s)] for a [str]: the empty string is false. *)
Definition truthy (s : str) : bool :=
  match s with [] => false | _ => true end.

End Py.

(** ** The fragment of [re] that [_parse_tag] uses

    [_parse_tag] builds the pattern [<TAG>(.*?)</TAG>] by pasting the tag name
    into a regular expression. A tag character that [re] reads as a literal
    becomes [Lit]; a dot becomes [Dot], the any-character wildcard. Tag names
    with other special characters ([^$*+?{}[]\|()]) produce patterns outside
    this fragment: [compile_tag] answers [None] for them. *)

Module Re.
Import Py.

Inductive atom : Type :=
  | Lit (c : char)
  | Dot.

Definition special (c : char) : bool :=
  bool_decide (c ∈ lit ".^$*+?{}[]\|()").

Definition compile_char (c : char) : option atom :=
  if (c =? 46)%N then Some Dot
  else if special c then None
  else Some (Lit c).

Definition compile_tag (tag : str) : option (list atom) :=
  mapM compile_char tag.

(** Under [re.DOTALL] the wildcard also matches a line feed. *)
Definition atom_matches (dotall : bool) (a : atom) (c : char) : bool :=
  match a with
  | Lit x => (x =? c)%N
  | Dot => dotall || negb (c =? nl)%N
  end.

(** Match a sequence of one-character atoms at the start of [s]; the rest of
    [s] is returned. *)
Fixpoint match_here (dotall : bool) (p : list atom) (s : str) : option str :=
  match p, s with
  | [], _ => Some s
  | a :: p', c :: s' =>
      if atom_matches dotall a c then match_here dotall p' s' else None
  | _ :: _, [] => None
  end.

(** The lazy group [(.*?)] followed by [q]: the shortest run of wildcard
    matches after which [q] matches. *)
Fixpoint lazy_group (dotall : bool) (q : list atom) (s : str) : option str :=
  match match_here dotall q s with
  | Some _ => Some []
  | None =>
      match s with
      | [] => None
      | c :: s' =>
          if atom_matches dotall Dot c
          then cons c <$> lazy_group dotall q s'
          else None
      end
  end.

(** The pattern [p(.*?)q] tried at the start of [s]. *)
Definition match_at (dotall : bool) (p q : list atom) (s : str) : option str :=
  match_here dotall p s ≫= lazy_group dotall q.

(** [re.search] of [p(.*?)q] in [s]: the leftmost start position at which the
    whole pattern matches; the text of group 1 is returned. *)
Fixpoint search (dotall : bool) (p q : list atom) (s : str) : option str :=
  match match_at dotall p q s with
  | Some g => Some g
  | None =>
      match s with
      | [] => None
      | _ :: s' => search dotall p q s'
      end
  end.

End Re.

(** ** [agent/base_agent.py] *)

Module Agent.
Import Py.

(** [subprocess.CompletedProcess], with the text of each field as an
    f-string renders it. *)
Record CompletedProcess : Type := {
  args : str;
  returncode : Z;
  stdout : str;
  stderr : str;
}.

(** [logging] levels. *)
Definition INFO : Z := 20.
Definition WARNING : Z := 30.

Section BaseAgent.

(** The collaborators: the sandbox a tool runs commands in, the model handle
    and the prompt type of [llm_toolkit]. *)
Context {Sandbox LLM Prompt : Type}.

(** [tool.base_tool.BaseTool] *)
Record BaseTool : Type := {
  tool_name : str;
  execute : str → Sandbox → CompletedProcess * Sandbox;
  tutorial : str;
}.

(** [DefaultTemplateBuilder(llm, None, initial=text).build([])] *)
Context (DefaultTemplateBuilder_build : LLM → str → Prompt).

Record BaseAgent : Type := {
  trial : Z;
  llm : LLM;
  tools : list BaseTool;
  name : str;
  dialog : str;
}.

(** What a round can change: the records of the trial logger and the
    sandbox of the tool. *)
Record World : Type := {
  log_records : list (Z * str);
  sandbox : Sandbox;
}.

(** [self.log(msg, level)] *)
Definition log (msg : str) (level : Z) (w : World) : World :=
  {| log_records := log_records w ++ [(level, msg)]; sandbox := sandbox w |}.

(** [get_tool] *)
Fixpoint get_tool (tools : list BaseTool) (wanted : str) : option BaseTool :=
  match tools with
  | [] => None
  | tool :: rest =>
      if bool_decide (tool_name tool = wanted) then Some tool
      else get_tool rest wanted
  end.

Definition lt : char := 60%N.
Definition gt : char := 62%N.
Definition slash : char := 47%N.

(** [_parse_tag]: [None] stands for a tag name whose pattern is outside the
    modelled fragment of [re]. *)
Definition _parse_tag (response tag : str) : option str :=
  t ← Re.compile_tag tag;
  Some match Re.search true ([Re.Lit lt] ++ t ++ [Re.Lit gt])
                            ([Re.Lit lt; Re.Lit slash] ++ t ++ [Re.Lit gt])
                            response with
       | Some group1 => strip group1
       | None => []
       end.

(** A tagged block of [response]: an opening tag, some inner text and a
    closing tag. The first block is the one that starts leftmost and, from
    there, closes earliest. *)
Definition open_tag (tag : str) : str := [lt] ++ tag ++ [gt].
Definition close_tag (tag : str) : str := [lt; slash] ++ tag ++ [gt].

Definition tagged_block (tag response pre inner post : str) : Prop :=
  response = pre ++ open_tag tag ++ inner ++ close_tag tag ++ post.

Definition first_tagged_block (tag response pre inner post : str) : Prop :=
  tagged_block tag response pre inner post ∧
  ∀ pre' inner' post', tagged_block tag response pre' inner' post' →
    (length pre < length pre'
     ∨ length pre = length pre' ∧ length inner ≤ length inner')%nat.

(** A tag name that [re] reads character by character. *)
Definition plain_tag (tag : str) : Prop := Forall (λ c, Re.special c = false) tag.

Definition is_fence (line : str) : bool := startswith (lit "```") (strip line).

(** The lines [_filter_code] keeps. *)
Definition kept_lines (raw_code_block : str) : list str :=
  filter (λ line, is_fence line = false) (splitlines raw_code_block).

(** [_filter_code] *)
Definition _filter_code (raw_code_block : str) : str :=
  let filtered_lines := kept_lines raw_code_block in
  join [nl] filtered_lines.

(** [_format_bash_execution_result] *)
Definition _format_bash_execution_result (process : CompletedProcess) : str :=
  lit "<bash>" ++ [nl] ++ args process ++ [nl] ++ lit "</bash>" ++ [nl]
  ++ lit "<return code>" ++ [nl] ++ str_of_int (returncode process) ++ [nl]
  ++ lit "</return code>" ++ [nl]
  ++ lit "<stdout>" ++ [nl] ++ stdout process ++ [nl] ++ lit "</stdout>" ++ [nl]
  ++ lit "<stderr>" ++ [nl] ++ stderr process ++ [nl] ++ lit "</stderr>" ++ [nl].

(** [_container_handle_bash_command] *)
Definition _container_handle_bash_command (self : BaseAgent) (cur_round : Z)
    (response : str) (tool : BaseTool) (w : World) : option (Prompt * World) :=
  command ← _parse_tag response (lit "bash");
  let '(prompt_text, w') :=
    if truthy command then
      let '(process, box) := execute tool command (sandbox w) in
      (_format_bash_execution_result process,
       {| log_records := log_records w; sandbox := box |})
    else
      (lit "No bash command received, Please follow the interaction protocols:"
         ++ [nl] ++ tutorial tool,
       log (lit "ROUND " ++ str_of_int cur_round
              ++ lit " No BASH command from LLM response: " ++ response)
           WARNING w)
  in
  Some (DefaultTemplateBuilder_build (llm self) prompt_text, w').

(** The Command Record as the specification words it: four labelled fields,
    each a block [<label>], the field's text, [</label>], on lines of their
    own. *)
Definition labelled_field (label body : str) : str :=
  [lt] ++ label ++ [gt] ++ [nl] ++ body ++ [nl]
  ++ [lt; slash] ++ label ++ [gt] ++ [nl].

Definition command_record_fields (process : CompletedProcess) : list (str * str) :=
  [ (lit "bash", args process);
    (lit "return code", str_of_int (returncode process));
    (lit "stdout", stdout process);
    (lit "stderr", stderr process) ].

End BaseAgent.

End Agent.

(** ** [posixpath] *)

Module Path.
Import Py.

Definition sep : char := 47%N.
Definition extsep : char := 46%N.

(** [os.path.join(a, b)] *)
Definition join (a b : str) : str :=
  if startswith [sep] b then b
  else if negb (truthy a) || endswith [sep] a then a ++ b
  else a ++ [sep] ++ b.

(** [s.rfind(c)]: the last index of [c] in [s], or -1. *)
Fixpoint rfind_from (c : char) (s : str) (i found : Z) : Z :=
  match s with
  | [] => found
  | x :: s' => rfind_from c s' (i + 1) (if (x =? c)%N then i else found)
  end.

Definition rfind (c : char) (s : str) : Z := rfind_from c s 0 (-1).

(** [p[i:j]] for indices that are not negative. *)
Definition slice (p : str) (i j : Z) : str :=
  take (Z.to_nat (j - i)) (drop (Z.to_nat i) p).

(** [os.path.splitext(p)]: the extension starts at the last dot of the last
    path component, unless only dots come before it in that component. *)
Definition splitext (p : str) : str * str :=
  let sepIndex := rfind sep p in
  let dotIndex := rfind extsep p in
  if (sepIndex <? dotIndex)
     && existsb (λ x, negb (x =? extsep)%N) (slice p (sepIndex + 1) dotIndex)
  then (take (Z.to_nat dotIndex) p, drop (Z.to_nat dotIndex) p)
  else (p, []).

End Path.

(** ** [run_all_experiments.py] *)

Module Orchestrator.
Import Py.

(** [experiment.benchmark.Benchmark]: the fields the orchestrator reads. *)
Record Benchmark : Type := {
  id : str;
  project : str;
  function_name : str;
  function_signature : str;
}.

(** [run_one_experiment.AggregatedResult]: the fields the orchestrator
    reads. The coverage differential is a Python [float]; only its comparison
    with zero and its rendering matter here, and it is modelled as a rational. *)
Record AggregatedResult : Type := {
  max_line_coverage_diff : Q;
  max_coverage_diff_sample : str;
  build_success_rate : Q;
}.

(** [Result.result : AggregatedResult | str] *)
Inductive Outcome : Type :=
  | Aggregated (r : AggregatedResult)
  | Failure (description : str).

Record Result : Type := {
  benchmark : Benchmark;
  result : Outcome;
}.

(** [argparse.Namespace] as [parse_args] fills it. *)
Record Namespace : Type := {
  num_samples : Z;
  temperature : Q;
  cloud_experiment_name : str;
  cloud_experiment_bucket : str;
  cloud_save_bucket : str;
  benchmarks_directory : option str;
  benchmark_yaml : option str;
  run_timeout : Z;
  ai_binary : str;
  model : str;
  template_directory : str;
  work_dir : str;
  context : bool;
  delay : Z;
}.

(** The exceptions that cross the orchestrator. [SystemExit] is not an
    [Exception] for an [except Exception] clause. *)
Inductive exception : Type :=
  | AssertionError (msg : str)
  | ValueError (msg : str)
  | TypeError (msg : str)
  | OverflowError (msg : str)
  | OSError (msg : str)
  | SystemExit (code : Z).

Definition is_Exception (e : exception) : bool :=
  match e with SystemExit _ => false | _ => true end.

Definition exception_str (e : exception) : str :=
  match e with
  | AssertionError msg | ValueError msg | TypeError msg
  | OverflowError msg | OSError msg => msg
  | SystemExit code => str_of_int code
  end.

(** How a call ends: with a value, with an exception, or never (a caller
    blocked on a task that does not complete). *)
Inductive outcome (A : Type) : Type :=
  | Ok (a : A)
  | Raise (e : exception)
  | Blocked.
Arguments Ok {A} a.
Arguments Raise {A} e.
Arguments Blocked {A}.

(** What the process can change around it. *)
Record World : Type := {
  stdout : list str;
  stderr : list str;
  logging : list (Z * str);
  uploads : list (str * str * str);  (* bucket, blob name, local file *)
  uuid_draws : nat;
  started : list str;                (* ids of the benchmarks whose experiment began *)
}.

Definition M (A : Type) : Type := World → outcome A * World.

#[global] Instance M_ret : MRet M := λ A a w, (Ok a, w).

#[global] Instance M_bind : MBind M := λ A B f m w,
  match m w with
  | (Ok a, w') => f a w'
  | (Raise e, w') => (Raise e, w')
  | (Blocked, w') => (Blocked, w')
  end.

Definition raise {A : Type} (e : exception) : M A := λ w, (Raise e, w).
Definition blocked {A : Type} : M A := λ w, (Blocked, w).

(** [try: body except Exception as e: handler(e)] *)
Definition try_except {A : Type} (body : M A) (handler : exception → M A) : M A :=
  λ w,
    match body w with
    | (Raise e, w') => if is_Exception e then handler e w' else (Raise e, w')
    | other => other
    end.

(** [assert cond, msg] *)
Definition assert (cond : bool) (msg : str) : M unit :=
  if cond then mret () else raise (AssertionError msg).

(** [for x in xs: body(x)] *)
Fixpoint for_each {A : Type} (xs : list A) (body : A → M unit) : M unit :=
  match xs with
  | [] => mret ()
  | x :: xs' => _ ← body x; for_each xs' body
  end.

Definition print (line : str) : M unit := λ w,
  (Ok (), {| stdout := stdout w ++ [line]; stderr := stderr w;
             logging := logging w; uploads := uploads w;
             uuid_draws := uuid_draws w; started := started w |}).

Definition print_err (line : str) : M unit := λ w,
  (Ok (), {| stdout := stdout w; stderr := stderr w ++ [line];
             logging := logging w; uploads := uploads w;
             uuid_draws := uuid_draws w; started := started w |}).

Definition INFO : Z := 20.
Definition ERROR : Z := 40.

Definition logging_log (level : Z) (msg : str) : M unit := λ w,
  (Ok (), {| stdout := stdout w; stderr := stderr w;
             logging := logging w ++ [(level, msg)]; uploads := uploads w;
             uuid_draws := uuid_draws w; started := started w |}).

(** [bucket.blob(name).upload_from_filename(file)], with a storage service
    that takes the file. *)
Definition upload_from_filename (bucket name file : str) : M unit := λ w,
  (Ok (), {| stdout := stdout w; stderr := stderr w;
             logging := logging w; uploads := uploads w ++ [(bucket, name, file)];
             uuid_draws := uuid_draws w; started := started w |}).

(** A call of [run_experiments] begins: the trace of the experiments that
    began, in the order in which they did, kept to state which ones ran. *)
Definition note_started (b : Benchmark) : M unit := λ w,
  (Ok (), {| stdout := stdout w; stderr := stderr w;
             logging := logging w; uploads := uploads w;
             uuid_draws := uuid_draws w; started := started w ++ [id b] |}).

(** [bool(x)] for an optional string: [None] and the empty string are false. *)
Definition truthy_opt (x : option str) : bool :=
  match x with Some s => truthy s | None => false end.

Definition str_of_opt (x : option str) : str :=
  match x with Some s => s | None => lit "None" end.

(** [s.split(c, maxsplit=1)[0]] *)
Fixpoint before_first (c : char) (s : str) : str :=
  match s with
  | [] => []
  | x :: s' => if (x =? c)%N then [] else x :: before_first c s'
  end.

(** The collaborators of the orchestrator, none of them part of these two
    files: the experiment pipeline and what it needs, the descriptor parser,
    the file system, the clock, the host, the random source and the wait of
    the platform. A pipeline call either returns or raises an [Exception],
    given here by its text. The file system and the parser are taken on their
    successful path. The platform's wait, asked to wait a length in seconds
    after so many earlier waits of the run, returns after that time or
    refuses with the text of an [OSError]; its answer may depend on the
    moment, which the number of earlier waits stands for. *)
Class Collaborators : Type := {
  WorkDirs : Type;
  LLM : Type;
  WorkDirs_new : str → str + WorkDirs;
  LLM_setup : str → str → Z → Z → Q → str + LLM;
  run_one_experiment_run :
    Benchmark → LLM → str → WorkDirs → str → str → bool → Z →
    str + AggregatedResult;
  MAX_TOKENS : Z;
  format_exc : str → str;
  AggregatedResult_str : AggregatedResult → str;
  float_str : Q → str;
  Benchmark_from_yaml : str → list Benchmark;
  listdir : option str → list str;
  isdir : str → bool;
  ArgumentParser_parse_args : list str → Z + Namespace;
  uuid4 : nat → str;
  today : str;
  hostname : str;
  clock_nanosleep : nat → Z → option str;
}.

Section Orchestrator.
Context `{Collaborators}.

Definition is_yaml_name (file : str) : bool :=
  endswith (lit ".yaml") file || endswith (lit "yml") file.

(** [time.sleep(secs)] for an [int], as CPython runs it, the run having
    waited [earlier] times before: the length is first turned into a signed
    64-bit count of nanoseconds, which fails beyond 9223372036 seconds either
    way; then a negative length is refused; then the platform is asked to
    wait, and may refuse. *)
Definition time_sleep (earlier : nat) (secs : Z) : M unit :=
  if (secs <? -9223372036) || (9223372036 <? secs)
  then raise (OverflowError (lit "timestamp too large to convert to C _PyTime_t"))
  else if secs <? 0
  then raise (ValueError (lit "sleep length must be non-negative"))
  else match clock_nanosleep earlier secs with
       | Some refusal => raise (OSError refusal)
       | None => mret ()
       end.

(** [time.sleep] waits for the length [secs] and returns at each of the
    first [n] waits of a run. *)
Definition sleepable (n : nat) (secs : Z) : bool :=
  (0 <=? secs) && (secs <=? 9223372036)
  && forallb (λ earlier, bool_decide (clock_nanosleep earlier secs = None))
       (seq 0 n).

(** [get_experiment_configs] *)
Definition get_experiment_configs (args : Namespace)
    : M (list (Benchmark * Namespace)) :=
  benchmark_yamls ←
    (if truthy_opt (benchmark_yaml args) then
       _ ← print (lit "A benchmark yaml file (" ++ str_of_opt (benchmark_yaml args)
                  ++ lit ") is provided. Will use it and ignore the files in "
                  ++ str_of_opt (benchmarks_directory args) ++ lit ".");
       mret [str_of_opt (benchmark_yaml args)]
     else
       let files := filter (λ file, is_yaml_name file = true)
                           (listdir (benchmarks_directory args)) in
       match benchmarks_directory args, files with
       | Some directory, _ => mret ((λ file, Path.join directory file) <$> files)
       | None, [] => mret []
       | None, _ :: _ =>
           raise (TypeError (lit "expected str, bytes or os.PathLike object, not NoneType"))
       end);
  let experiment_configs := concat (Benchmark_from_yaml <$> benchmark_yamls) in
  mret ((λ config, (config, args)) <$> experiment_configs).

(** The body of the [try] in [run_experiments]. *)
Definition experiment (benchmark : Benchmark) (args : Namespace)
    : str + AggregatedResult :=
  match WorkDirs_new (Path.join (work_dir args) (lit "output-" ++ id benchmark)) with
  | inl e => inl e
  | inr work_dirs =>
      match LLM_setup (ai_binary args) (model args) MAX_TOKENS
                      (num_samples args) (temperature args) with
      | inl e => inl e
      | inr llm =>
          run_one_experiment_run benchmark llm (template_directory args)
            work_dirs (cloud_experiment_name args) (cloud_experiment_bucket args)
            (context args) (run_timeout args)
      end
  end.

Definition failure_text (e : str) : str :=
  lit "Exception while running experiment: " ++ e.

(** The [Result] that [run_experiments] returns. *)
Definition experiment_result (benchmark : Benchmark) (args : Namespace) : Result :=
  match experiment benchmark args with
  | inr aggregated => {| benchmark := benchmark; result := Aggregated aggregated |}
  | inl e => {| benchmark := benchmark; result := Failure (failure_text e) |}
  end.

(** The [try] statement of [run_experiments]: the result of its body, or
    what the handler prints and returns. *)
Definition run_experiments_try (benchmark : Benchmark) (args : Namespace)
    : M Result :=
  match experiment benchmark args with
  | inr aggregated =>
      mret {| benchmark := benchmark; result := Aggregated aggregated |}
  | inl e =>
      _ ← print_err (failure_text e);
      _ ← print_err (format_exc e);
      mret {| benchmark := benchmark; result := Failure (failure_text e) |}
  end.

(** [run_experiments]: the call begins, and its [try] statement runs. *)
Definition run_experiments (benchmark : Benchmark) (args : Namespace) : M Result :=
  _ ← note_started benchmark;
  run_experiments_try benchmark args.

(** [parse_args], after [argparse] has read the argument vector. *)
Definition parse_args (argv : list str) : M Namespace :=
  match ArgumentParser_parse_args argv with
  | inl code => raise (SystemExit code)
  | inr args =>
      _ ← (if negb (num_samples args =? 0)
           then assert (0 <? num_samples args)
                  (lit "--num-samples must take a positive integer.")
           else mret ());
      _ ← (if negb (Qeq_bool (temperature args) 0)
           then assert (Qle_bool (temperature args) 2 && Qle_bool 0 (temperature args))
                  (lit "--temperature must be within 0 and 2.")
           else mret ());
      let benchmark_yaml := benchmark_yaml args in
      _ ← (if truthy_opt benchmark_yaml
           then assert (is_yaml_name (str_of_opt benchmark_yaml))
                  (lit "--benchmark-yaml needs to take an YAML file.")
           else mret ());
      _ ← assert (xorb (truthy_opt benchmark_yaml)
                       (truthy_opt (benchmarks_directory args)))
            (lit "One and only one of --benchmark-yaml and --benchmarks-directory is required. The former takes one benchmark YAML file, the latter takes: a directory of them.");
      _ ← assert (isdir (template_directory args))
            (lit "--template-directory must be an existing directory.");
      _ ← assert (eqb (truthy (cloud_experiment_name args))
                      (truthy (cloud_experiment_bucket args)))
            (lit "Cannot accept exactly one of --args.cloud-experiment-name and --args.cloud-experiment-bucket: Local experiment requires neither of them, cloud experiment needs both.");
      mret args
  end.

Definition outcome_str (o : Outcome) : str :=
  match o with
  | Aggregated r => AggregatedResult_str r
  | Failure description => description
  end.

(** [_print_experiment_result] *)
Definition _print_experiment_result (r : Result) : M unit :=
  print ([nl] ++ lit "**** Finished benchmark " ++ project (benchmark r)
         ++ lit ", " ++ function_signature (benchmark r) ++ lit " ****" ++ [nl]
         ++ outcome_str (result r)).

(** [_print_experiment_results] *)
Definition _print_experiment_results (results : list Result) : M unit :=
  _ ← print ([nl; nl] ++ lit "**** FINAL RESULTS: ****" ++ [nl; nl]);
  for_each results (λ r,
    _ ← print (replicate 80 61%N);
    print (lit "*" ++ project (benchmark r) ++ lit ", "
           ++ function_signature (benchmark r) ++ lit "*" ++ [nl]
           ++ outcome_str (result r) ++ [nl])).

(** The blob name [_save_best_target] gives the best target of a result. *)
Definition save_name (b : Benchmark) (r : AggregatedResult)
    (exp_name rand_id : str) : str :=
  lit "llm_generated_targets/" ++ project b ++ lit "/"
  ++ function_name b ++ lit "-" ++ float_str (max_line_coverage_diff r)
  ++ lit "-" ++ exp_name ++ lit "-" ++ rand_id
  ++ (Path.splitext (max_coverage_diff_sample r)).2.

Definition positive (q : Q) : bool := negb (Qle_bool q 0).

(** The body of the loop of [_save_best_target]. *)
Definition promote_one (save_bucket exp_name rand_id : str) (r : Result) : M unit :=
  match result r with
  | Failure _ => mret ()
  | Aggregated aggregated =>
      let best_cov := max_line_coverage_diff aggregated in
      let best_target := max_coverage_diff_sample aggregated in
      let name := save_name (benchmark r) aggregated exp_name rand_id in
      if positive best_cov then
        _ ← upload_from_filename save_bucket name best_target;
        logging_log INFO (lit "Uploaded " ++ best_target ++ lit " to gs://"
                          ++ save_bucket ++ lit "/" ++ name ++ lit ".")
      else mret ()
  end.

(** [uuid.uuid4()]: the next value of the random source. *)
Definition draw_uuid4 : M str := λ w,
  (Ok (uuid4 (uuid_draws w)),
   {| stdout := stdout w; stderr := stderr w; logging := logging w;
      uploads := uploads w; uuid_draws := S (uuid_draws w);
      started := started w |}).

(** [_save_best_target] *)
Definition _save_best_target (results : list Result) (save_bucket exp_name : str)
    : M unit :=
  u ← draw_uuid4;
  let rand_id := before_first 45%N u in
  let exp_name :=
    if truthy exp_name then exp_name else today ++ lit "-" ++ hostname in
  for_each results (promote_one save_bucket exp_name rand_id).

(** *** The two ways [main] runs the experiments *)

(** The sequential branch. *)
Fixpoint run_sequential (configs : list (Benchmark * Namespace)) : M (list Result) :=
  match configs with
  | [] => mret []
  | (b, args) :: rest =>
      r ← run_experiments b args;
      _ ← _print_experiment_result r;
      results ← run_sequential rest;
      mret (r :: results)
  end.

(** A [multiprocessing.Pool]: the tasks submitted so far, a task's handle
    being its position; how many of them the workers have taken from the
    queue, which they do in the order of submission; and the results of the
    tasks that have completed. *)
Record Pool : Type := {
  tasks : list (Benchmark * Namespace);
  taken : nat;
  completed : gmap nat Result;
}.

(** [Pool(processes)], on a platform that starts the worker processes. *)
Definition Pool_new (processes : Z) : M Pool :=
  if processes <? 1
  then raise (ValueError (lit "Number of processes must be at least 1"))
  else mret {| tasks := []; taken := 0; completed := ∅ |}.

(** [p.apply_async(run_experiments, config, callback=...)]: the task joins
    the queue. *)
Definition apply_async (p : Pool) (config : Benchmark * Namespace) : nat * Pool :=
  (length (tasks p),
   {| tasks := tasks p ++ [config]; taken := taken p; completed := completed p |}).

(** The submission loop, with its pause after each submission: the pause
    after the task with handle [h] is the one that [h] pauses precede. *)
Fixpoint submit_all (pause : Z) (configs : list (Benchmark * Namespace)) (p : Pool)
    : M (list nat * Pool) :=
  match configs with
  | [] => mret ([], p)
  | config :: rest =>
      let '(experiment_task, p) := apply_async p config in
      _ ← time_sleep experiment_task pause;
      '(experiment_tasks, p) ← submit_all pause rest p;
      mret (experiment_task :: experiment_tasks, p)
  end.

(** The workers have taken the first [n] tasks of the queue: the calls of
    [run_experiments] for the tasks not taken before begin, in the order of
    submission. *)
Definition take_tasks (n : nat) (p : Pool) : M Pool :=
  _ ← for_each (drop (taken p) (take n (tasks p)))
        (λ config, note_started config.1);
  mret {| tasks := tasks p; taken := taken p `max` n; completed := completed p |}.

(** A worker finishes task [h]. The task, and with it every task submitted
    before it, has been taken from the queue; the [try] statement of its
    call has run, its result is stored and the callback reports it. A handle
    that names no pending task changes nothing. *)
Definition complete (h : nat) (p : Pool) : M Pool :=
  match tasks p !! h, completed p !! h with
  | Some (b, args), None =>
      p ← take_tasks (S h) p;
      r ← run_experiments_try b args;
      _ ← _print_experiment_result r;
      mret {| tasks := tasks p; taken := taken p;
              completed := <[h := r]> (completed p) |}
  | _, _ => mret p
  end.

(** [task.get()]: wait until task [h] has completed, while the workers finish
    tasks in the order [schedule]; then hand out its result. *)
Fixpoint task_get (h : nat) (schedule : list nat) (p : Pool)
    : M (Result * list nat * Pool) :=
  match completed p !! h with
  | Some r => mret (r, schedule, p)
  | None =>
      match schedule with
      | [] => blocked
      | k :: schedule' => p' ← complete k p; task_get h schedule' p'
      end
  end.

(** [[task.get() for task in experiment_tasks]] *)
Fixpoint gather (experiment_tasks : list nat) (schedule : list nat) (p : Pool)
    : M (list Result) :=
  match experiment_tasks with
  | [] => mret []
  | h :: rest =>
      '(r, schedule, p) ← task_get h schedule p;
      results ← gather rest schedule p;
      mret (r :: results)
  end.

(** The worker-pool branch; [schedule] is the order in which the workers
    finish their tasks. *)
Definition run_pool (NUM_EXP : Z) (args : Namespace)
    (configs : list (Benchmark * Namespace)) (schedule : list nat)
    : M (list Result) :=
  p ← Pool_new NUM_EXP;
  '(experiment_tasks, p) ← submit_all (delay args) configs p;
  gather experiment_tasks schedule p.

(** The branch on [NUM_EXP] in [main]. *)
Definition run_all (NUM_EXP : Z) (args : Namespace)
    (configs : list (Benchmark * Namespace)) (schedule : list nat)
    : M (list Result) :=
  if NUM_EXP =? 1 then run_sequential configs
  else run_pool NUM_EXP args configs schedule.

(** [main]. [logging.basicConfig] and [run_one_experiment.prepare] change
    nothing that this model records. *)
Definition main (NUM_EXP : Z) (argv : list str) (schedule : list nat) : M unit :=
  args ← parse_args argv;
  experiment_configs ← get_experiment_configs args;
  _ ← print (lit "Running " ++ str_of_int NUM_EXP
             ++ lit " experiment(s) in parallel.");
  experiment_results ← run_all NUM_EXP args experiment_configs schedule;
  _ ← _print_experiment_results experiment_results;
  if truthy (cloud_save_bucket args) then
    try_except
      (_save_best_target experiment_results (cloud_save_bucket args)
                         (cloud_experiment_name args))
      (λ e, logging_log ERROR
              (lit "Failed to upload best targets: " ++ exception_str e))
  else mret ().

(** Every submitted task is finished by the workers at some point. *)
Definition completes_all (n : nat) (schedule : list nat) : Prop :=
  ∀ h, (h < n)%nat → h ∈ schedule.

(** The argument errors the specification lists, with the range of the
    temperature as the code has it, and the check of the descriptor's name.
    A source, a name or a bucket is given when its value is not empty. *)
Definition listed_violation (args : Namespace) : Prop :=
  (truthy_opt (benchmark_yaml args) = true
   ∧ truthy_opt (benchmarks_directory args) = true)
  ∨ (truthy_opt (benchmark_yaml args) = false
     ∧ truthy_opt (benchmarks_directory args) = false)
  ∨ (truthy (cloud_experiment_name args) = true
     ∧ truthy (cloud_experiment_bucket args) = false)
  ∨ (truthy (cloud_experiment_name args) = false
     ∧ truthy (cloud_experiment_bucket args) = true)
  ∨ (temperature args < 0)%Q
  ∨ (2 < temperature args)%Q
  ∨ isdir (template_directory args) = false
  ∨ num_samples args < 0
  ∨ (truthy_opt (benchmark_yaml args) = true
     ∧ is_yaml_name (str_of_opt (benchmark_yaml args)) = false).

Definition well_formed (args : Namespace) : Prop :=
  xorb (truthy_opt (benchmark_yaml args))
       (truthy_opt (benchmarks_directory args)) = true
  ∧ (truthy_opt (benchmark_yaml args) = true →
       endswith (lit ".yaml") (str_of_opt (benchmark_yaml args)) = true
       ∨ endswith (lit ".yml") (str_of_opt (benchmark_yaml args)) = true)
  ∧ truthy (cloud_experiment_name args) = truthy (cloud_experiment_bucket args)
  ∧ (0 <= temperature args)%Q ∧ (temperature args <= 2)%Q
  ∧ isdir (template_directory args) = true
  ∧ 0 < num_samples args.

(** The argument errors as the specification lists them. *)
Definition stated_violation (args : Namespace) : Prop :=
  (truthy_opt (benchmark_yaml args) = true
   ∧ truthy_opt (benchmarks_directory args) = true)
  ∨ (truthy_opt (benchmark_yaml args) = false
     ∧ truthy_opt (benchmarks_directory args) = false)
  ∨ (truthy (cloud_experiment_name args) = true
     ∧ truthy (cloud_experiment_bucket args) = false)
  ∨ (truthy (cloud_experiment_name args) = false
     ∧ truthy (cloud_experiment_bucket args) = true)
  ∨ (temperature args < 0)%Q
  ∨ (2 < temperature args)%Q
  ∨ isdir (template_directory args) = false
  ∨ num_samples args ≤ 0.

(** The checks of [parse_args], taken together. *)
Definition accepted (args : Namespace) : bool :=
  ((num_samples args =? 0) || (0 <? num_samples args))
  && (Qeq_bool (temperature args) 0
      || Qle_bool (temperature args) 2 && Qle_bool 0 (temperature args))
  && (negb (truthy_opt (benchmark_yaml args))
      || is_yaml_name (str_of_opt (benchmark_yaml args)))
  && xorb (truthy_opt (benchmark_yaml args))
          (truthy_opt (benchmarks_directory args))
  && isdir (template_directory args)
  && eqb (truthy (cloud_experiment_name args))
         (truthy (cloud_experiment_bucket args)).

(** The workers finish every task that is still pending in [p]. *)
Definition finishes_pending (schedule : list nat) (p : Pool) : Prop :=
  ∀ h, (h < length (tasks p))%nat → h ∈ schedule ∨ is_Some (completed p !! h).

(** The result of a config, whichever process computes it. *)
Definition result_of (config : Benchmark * Namespace) : Result :=
  experiment_result config.1 config.2.

(** The stored results of a pool are the results of its tasks. *)
Definition pool_consistent (p : Pool) : Prop :=
  ∀ h r, completed p !! h = Some r →
    ∃ config, tasks p !! h = Some config ∧ r = result_of config.

(** The label of a run: the name given, or the date and the host. *)
Definition run_label (exp_name : str) : str :=
  if truthy exp_name then exp_name else today ++ lit "-" ++ hostname.

(** The upload a result is promoted with, if it is promoted. *)
Definition promotion (save_bucket label rand_id : str) (r : Result)
    : option (str * str * str) :=
  match result r with
  | Aggregated aggregated =>
      if positive (max_line_coverage_diff aggregated)
      then Some (save_bucket,
                 save_name (benchmark r) aggregated label rand_id,
                 max_coverage_diff_sample aggregated)
      else None
  | Failure _ => None
  end.


(** The text [_print_experiment_result] prints for a result. *)
Definition stream_report (r : Result) : str :=
  [nl] ++ lit "**** Finished benchmark " ++ project (benchmark r)
  ++ lit ", " ++ function_signature (benchmark r) ++ lit " ****" ++ [nl]
  ++ outcome_str (result r).





(** The configs of the tasks that completed, in the order [order] of their
    completion. *)
Definition completed_configs (configs : list (Benchmark * Namespace))
    (order : list nat) : list (Benchmark * Namespace) :=
  omap (λ h, configs !! h) order.

(** The state of a pool run after the tasks [order] have completed, one
    after the other: what was stored, what was started and what was reported
    since the world [w0]. *)
Definition pool_trace (configs : list (Benchmark * Namespace)) (w0 : World)
    (order : list nat) (p : Pool) (w : World) : Prop :=
  tasks p = configs
  ∧ NoDup order
  ∧ (∀ h, h ∈ order ↔ is_Some (completed p !! h))
  ∧ (∀ h, h ∈ order → (h < taken p)%nat)
  ∧ (taken p ≤ length configs)%nat
  ∧ started w = started w0 ++ ((λ c, id c.1) <$> take (taken p) configs)
  ∧ stdout w
    = stdout w0
      ++ ((λ c, stream_report (result_of c)) <$> completed_configs configs order)
  ∧ uploads w = uploads w0 ∧ uuid_draws w = uuid_draws w0.

(** A computation that leaves the storage bucket and the random source as
    they were, however it ends. *)
Definition keeps_storage {A : Type} (m : M A) : Prop :=
  ∀ w, uploads (m w).2 = uploads w ∧ uuid_draws (m w).2 = uuid_draws w.


(** The record [_save_best_target] logs for an upload. *)
Definition upload_record (u : str * str * str) : Z * str :=
  (INFO, lit "Uploaded " ++ u.2 ++ lit " to gs://" ++ u.1.1 ++ lit "/"
         ++ u.1.2 ++ lit ".").

End Orchestrator.

End Orchestrator.

(** ** A concrete set of collaborators

    Used to run the definitions on examples: a pipeline that fails to build
    the benchmark [parse] and succeeds on every other one, a directory with
    three files, a reader of a few command-line options, and a platform
    that refuses a wait that would end 9223372036 seconds or more after the
    start of the run. *)

Module Demo.
Import Py Orchestrator.

Definition bench (name : string) : Benchmark :=
  {| id := lit name; project := lit "libpng"; function_name := lit name;
     function_signature := lit "int " ++ lit name ++ lit "(void)" |}.

Definition namespace (yaml directory : option str) (samples pause : Z) : Namespace :=
  {| num_samples := samples; temperature := 0.4; cloud_experiment_name := [];
     cloud_experiment_bucket := []; cloud_save_bucket := [];
     benchmarks_directory := directory; benchmark_yaml := yaml;
     run_timeout := 30; ai_binary := []; model := lit "vertex_ai_code-bison";
     template_directory := lit "prompts/template_xml"; work_dir := lit "results";
     context := false; delay := pause |}.

(** The options [-y FILE], [-b DIR], [-b DIR -n 0] and [-b DIR --delay -1];
    any other argument vector makes [argparse] exit with status 2. *)
Definition parse (argv : list str) : Z + Namespace :=
  match argv with
  | [flag; value] =>
      if bool_decide (flag = lit "-y") then inr (namespace (Some value) None 2 0)
      else if bool_decide (flag = lit "-b") then inr (namespace None (Some value) 2 0)
      else inl 2
  | [flag; value; flag2; value2] =>
      if bool_decide (flag = lit "-b" ∧ flag2 = lit "-n" ∧ value2 = lit "0")
      then inr (namespace None (Some value) 0 0)
      else if bool_decide (flag = lit "-b" ∧ flag2 = lit "--delay" ∧ value2 = lit "-1")
      then inr (namespace None (Some value) 2 (-1))
      else inl 2
  | _ => inl 2
  end.

Definition collaborators : Collaborators :=
  {| WorkDirs := str;
     LLM := str;
     WorkDirs_new := inr;
     LLM_setup := λ _ name _ _ _, inr name;
     run_one_experiment_run := λ b _ _ _ _ _ _ _,
       if bool_decide (id b = lit "parse") then inl (lit "build failed")
       else inr {| max_line_coverage_diff := 5;
                   max_coverage_diff_sample := lit "out/" ++ id b ++ lit "/01.cc";
                   build_success_rate := 1 |};
     MAX_TOKENS := 4096;
     format_exc := λ e, lit "Traceback (most recent call last): " ++ e;
     AggregatedResult_str := λ r,
       lit "max coverage diff " ++ str_of_int (Qnum (max_line_coverage_diff r));
     float_str := λ q, str_of_int (Qnum q);
     Benchmark_from_yaml := λ file,
       [ {| id := file; project := lit "libpng"; function_name := file;
            function_signature := file |} ];
     listdir := λ _, [lit "png.yaml"; lit "notes.txt"; lit "old.notyml"];
     isdir := λ d, bool_decide (d = lit "prompts/template_xml");
     ArgumentParser_parse_args := parse;
     uuid4 := λ n, lit "1b9d6bcd-bbfd-4b2d-9b5d-ab8dfbbd4bed";
     today := lit "2024-05-01";
     hostname := lit "builder";
     clock_nanosleep := λ earlier secs,
       if (Z.of_nat earlier + 1) * secs <? 9223372036 then None
       else Some (lit "[Errno 22] Invalid argument") |}.

Definition w0 : World :=
  {| stdout := []; stderr := []; logging := []; uploads := [];
     uuid_draws := 0; started := [] |}.

Definition args0 : Namespace := namespace None (Some (lit "benchmarks")) 2 0.

Definition outcome_of (name : string) (cov : Q) (sample : string) : Result :=
  {| benchmark := bench name;
     result := Aggregated {| max_line_coverage_diff := cov;
                            max_coverage_diff_sample := lit sample;
                            build_success_rate := 1 |} |}.

End Demo.

(** * Properties *)

(** ** Facts about the string functions *)

Module PyFacts.
Import Py.

Lemma lstrip_spec (s : str) :
  ∃ ws, s = ws ++ lstrip s ∧ all_space ws
        ∧ ∀ c, head (lstrip s) = Some c → is_space c = false.
Proof.
  induction s as [|c s IH].
  { exists []. split; [done|]. split; [constructor|done]. }
  destruct IH as (ws & Hs & Hws & Hhead).
  simpl. destruct (is_space c) eqn:Hc.
  - exists (c :: ws). split; [simpl; by f_equal|].
    split; [by constructor|done].
  - exists []. split; [done|]. split; [constructor|]. by intros ? [= <-].
Qed.

(** [strip] removes a run of white space at each end, and nothing else. *)
Lemma strip_spec (s : str) :
  ∃ before after,
    s = before ++ strip s ++ after ∧ all_space before ∧ all_space after
    ∧ (∀ c, head (strip s) = Some c → is_space c = false)
    ∧ (∀ c, last (strip s) = Some c → is_space c = false).
Proof.
  destruct (lstrip_spec s) as (before & Hs & Hbefore & Hhead).
  destruct (lstrip_spec (reverse (lstrip s))) as (after & Hr & Hafter & Hlast).
  assert (lstrip s = strip s ++ reverse after) as Hmid.
  { unfold strip, rstrip.
    by rewrite <-(reverse_involutive (lstrip s)), Hr at 1; rewrite reverse_app. }
  exists before, (reverse after). split; [by rewrite <-Hmid|].
  split; [done|]. split; [by apply Forall_reverse|]. split.
  - intros c Hc. apply Hhead. rewrite Hmid.
    destruct (strip s); [done|]. simpl in *. done.
  - intros c Hc. apply Hlast. unfold strip, rstrip in Hc.
    by rewrite last_reverse in Hc.
Qed.


Lemma splitlines_no_linebreak (s : str) : Forall no_linebreak (splitlines s).
Proof.
  induction s as [s IH] using (induction_ltof1 _ (@length char)).
  unfold ltof in IH. destruct s as [|c s']; [constructor|]. simpl.
  destruct (is_linebreak c) eqn:Hc.
  - constructor; [constructor|].
    destruct s' as [|d s'']; [constructor|].
    destruct ((c =? cr)%N && (d =? nl)%N); apply IH; simpl; lia.
  - pose proof (IH s' ltac:(simpl; lia)) as IHs.
    destruct (splitlines s') as [|l ls]; repeat constructor; auto.
    + by inversion IHs.
    + by inversion IHs.
Qed.

Lemma splitlines_line (p : str) :
  no_linebreak p → splitlines p = match p with [] => [] | _ => [p] end.
Proof.
  induction 1 as [|c p Hc Hp IH]; [done|]. simpl. rewrite Hc, IH.
  by destruct p.
Qed.

Lemma splitlines_app_nl (p rest : str) :
  no_linebreak p → splitlines (p ++ nl :: rest) = p :: splitlines rest.
Proof.
  induction 1 as [|c p Hc Hp IH]; simpl.
  - by destruct rest.
  - by rewrite Hc, IH.
Qed.

Lemma join_cons (sep p : str) (ps : list str) :
  ps ≠ [] → join sep (p :: ps) = p ++ sep ++ join sep ps.
Proof. by destruct ps. Qed.

Lemma drop_last_empty_cons (l : str) (ls : list str) :
  ls ≠ [] → drop_last_empty (l :: ls) = l :: drop_last_empty ls.
Proof. by destruct ls. Qed.

(** Splitting a joined list of lines gives the lines back, except for an
    empty last line. *)
Lemma splitlines_join (lines : list str) :
  Forall no_linebreak lines →
  splitlines (join [nl] lines) = drop_last_empty lines.
Proof.
  induction 1 as [|p ps Hp Hps IH]; [done|].
  destruct ps as [|p2 ps].
  - simpl. rewrite splitlines_line by done. by destruct p.
  - rewrite join_cons, drop_last_empty_cons by done.
    cbn [app]. by rewrite splitlines_app_nl, IH.
Qed.







Lemma filter_all {A : Type} (P : A → Prop) `{∀ x, Decision (P x)} (l : list A) :
  (∀ x, x ∈ l → P x) → filter P l = l.
Proof.
  induction l as [|x l IH]; intros Hall; [done|].
  rewrite filter_cons_True by (apply Hall; left).
  f_equal. apply IH. intros y Hy. apply Hall. by right.
Qed.


End PyFacts.

(** ** Facts about the pattern matcher *)

Module ReFacts.
Import Py Re.

Lemma match_here_lit (d : bool) (w s r : str) :
  match_here d (Lit <$> w) s = Some r ↔ s = w ++ r.
Proof.
  revert s. induction w as [|a w IH]; intros s; simpl.
  - split; congruence.
  - destruct s as [|c s]; [done|].
    destruct (N.eqb_spec a c) as [->|Hne].
    + rewrite IH. split; congruence.
    + split; [done|]. intros [=]. done.
Qed.

Lemma match_here_lit_None (d : bool) (w s : str) :
  match_here d (Lit <$> w) s = None → ∀ r, s ≠ w ++ r.
Proof.
  intros H r Hs. apply (match_here_lit d) in Hs. congruence.
Qed.

Lemma lazy_group_eq (d : bool) (q : list atom) (s : str) :
  lazy_group d q s =
  match match_here d q s with
  | Some _ => Some []
  | None =>
      match s with
      | [] => None
      | c :: s' =>
          if atom_matches d Dot c then cons c <$> lazy_group d q s' else None
      end
  end.
Proof. by destruct s. Qed.

Lemma search_eq (d : bool) (p q : list atom) (s : str) :
  search d p q s =
  match match_at d p q s with
  | Some g => Some g
  | None => match s with [] => None | _ :: s' => search d p q s' end
  end.
Proof. by destruct s. Qed.

(** The lazy group stops at the first place where the closing text occurs. *)
Lemma lazy_group_lit (w s : str) :
  match lazy_group true (Lit <$> w) s with
  | Some g =>
      ∃ post, s = g ++ w ++ post
        ∧ ∀ g' post', s = g' ++ w ++ post' → (length g ≤ length g')%nat
  | None => ∀ g' post', s ≠ g' ++ w ++ post'
  end.
Proof.
  induction s as [|c s IH]; rewrite lazy_group_eq.
  - destruct (match_here true (Lit <$> w) []) as [r|] eqn:E.
    + apply match_here_lit in E. exists r. split; [done|]. simpl; lia.
    + intros g' post' H. symmetry in H. apply app_eq_nil in H as [-> H].
      by eapply match_here_lit_None.
  - destruct (match_here true (Lit <$> w) (c :: s)) as [r|] eqn:E.
    + apply match_here_lit in E. exists r. split; [done|]. simpl; lia.
    + pose proof (match_here_lit_None _ _ _ E) as Hno. simpl.
      destruct (lazy_group true (Lit <$> w) s) as [g|]; simpl.
      * destruct IH as (post & -> & Hmin). exists post. split; [done|].
        intros [|c' g'] post' H; [by apply Hno in H|].
        injection H as -> H. apply Hmin in H. simpl; lia.
      * intros [|c' g'] post' H; [by apply Hno in H|].
        injection H as -> H. by apply IH in H.
Qed.

(** The search finds the leftmost opening text that is followed by a closing
    text, and the group ends at the first such closing text. *)
Lemma search_lit (o w s : str) :
  match search true (Lit <$> o) (Lit <$> w) s with
  | Some g =>
      ∃ pre post, s = pre ++ o ++ g ++ w ++ post
        ∧ ∀ pre' g' post', s = pre' ++ o ++ g' ++ w ++ post' →
            (length pre < length pre'
             ∨ length pre = length pre' ∧ length g ≤ length g')%nat
  | None => ∀ pre' g' post', s ≠ pre' ++ o ++ g' ++ w ++ post'
  end.
Proof.
  assert (Hhere : ∀ s,
    match match_at true (Lit <$> o) (Lit <$> w) s with
    | Some g =>
        ∃ post, s = o ++ g ++ w ++ post
          ∧ ∀ g' post', s = o ++ g' ++ w ++ post' → (length g ≤ length g')%nat
    | None => ∀ g' post', s ≠ o ++ g' ++ w ++ post'
    end).
  { intros t. unfold match_at.
    destruct (match_here true (Lit <$> o) t) as [r|] eqn:E; simpl.
    - apply match_here_lit in E. subst t.
      pose proof (lazy_group_lit w r) as H.
      destruct (lazy_group true (Lit <$> w) r) as [g|].
      + destruct H as (post & -> & Hmin). exists post. split; [done|].
        intros g' post' H. apply app_inv_head in H. eauto.
      + intros g' post' H'. apply app_inv_head in H'. by apply H in H'.
    - intros g' post'. by eapply match_here_lit_None. }
  induction s as [|c s IH]; rewrite search_eq.
  - pose proof (Hhere []) as Hh. cbv beta in Hh.
    destruct (match_at true (Lit <$> o) (Lit <$> w) []) as [g|].
    + destruct Hh as (post & Hs & Hmin). exists [], post. split; [done|].
      intros pre' g' post' H. symmetry in H. apply app_eq_nil in H as [-> H].
      right. split; [done|]. eapply Hmin. by rewrite H.
    + intros pre' g' post' H. symmetry in H. apply app_eq_nil in H as [-> H].
      by eapply Hh.
  - pose proof (Hhere (c :: s)) as Hh. cbv beta in Hh.
    destruct (match_at true (Lit <$> o) (Lit <$> w) (c :: s)) as [g|].
    + destruct Hh as (post & Hs & Hmin). exists [], post. split; [done|].
      intros [|c' pre'] g' post' H; [|left; simpl; lia].
      right. split; [done|]. by eapply Hmin.
    + destruct (search true (Lit <$> o) (Lit <$> w) s) as [g|].
      * destruct IH as (pre & post & -> & Hmin). exists (c :: pre), post.
        split; [done|].
        intros [|c' pre'] g' post' H; [by apply Hh in H|].
        injection H as -> H. apply Hmin in H. simpl; lia.
      * intros [|c' pre'] g' post' H; [by apply Hh in H|].
        injection H as -> H. by apply IH in H.
Qed.

Lemma compile_tag_plain (tag : str) :
  Forall (λ c, special c = false) tag → compile_tag tag = Some (Lit <$> tag).
Proof.
  unfold compile_tag. induction 1 as [|c tag Hc Htag IH]; [done|].
  simpl. rewrite IH. unfold compile_char. rewrite Hc.
  by destruct (N.eqb_spec c 46) as [->|_].
Qed.

End ReFacts.

(** ** The agent's round handling *)

Module AgentProps.
Import Py Re Agent PyFacts ReFacts.

Lemma parse_tag_plain (response tag : str) :
  plain_tag tag →
  _parse_tag response tag =
  Some match search true (Lit <$> open_tag tag) (Lit <$> close_tag tag) response with
       | Some group1 => strip group1
       | None => []
       end.
Proof.
  intros Htag. unfold _parse_tag. rewrite compile_tag_plain by done. simpl.
  unfold open_tag, close_tag. by rewrite !fmap_app.
Qed.

(** With a plain tag name the answer is the trimmed inner text of the first
    block, or the empty string when there is no block. *)
Lemma parse_tag_plain_cases (response tag : str) :
  plain_tag tag →
  (∃ pre inner post, first_tagged_block tag response pre inner post
     ∧ _parse_tag response tag = Some (strip inner))
  ∨ ((∀ pre inner post, ¬ tagged_block tag response pre inner post)
     ∧ _parse_tag response tag = Some []).
Proof.
  intros Htag. rewrite parse_tag_plain by done.
  pose proof (search_lit (open_tag tag) (close_tag tag) response) as H.
  destruct (search true (Lit <$> open_tag tag) (Lit <$> close_tag tag) response)
    as [g|].
  - left. destruct H as (pre & post & Hs & Hmin). by exists pre, g, post.
  - right. split; [|done]. intros pre inner post Hb. by apply H in Hb.
Qed.

Lemma first_tagged_block_unique (tag response pre1 inner1 post1 pre2 inner2 post2 : str) :
  first_tagged_block tag response pre1 inner1 post1 →
  first_tagged_block tag response pre2 inner2 post2 →
  inner1 = inner2.
Proof.
  intros [Hb1 Hmin1] [Hb2 Hmin2].
  pose proof (Hmin1 _ _ _ Hb2) as H12. pose proof (Hmin2 _ _ _ Hb1) as H21.
  assert (length pre1 = length pre2 ∧ length inner1 = length inner2)
    as [Hpre Hinner] by lia.
  unfold tagged_block in *. rewrite Hb1 in Hb2.
  apply app_inj_1 in Hb2 as [_ Hb2]; [|done].
  apply app_inv_head in Hb2. by apply app_inj_1 in Hb2 as [? _].
Qed.

Lemma bash_is_plain : plain_tag (lit "bash").
Proof. by repeat constructor. Qed.

(** C3, as amended: for every reply text and every tag name without
    characters that are special in a regular expression, tag extraction
    returns a string and never fails; if the text contains a tagged block, the
    result is the trimmed inner text of the first one, whatever lines it
    spans; if the text contains none, the result is the empty string. *)
Theorem parse_tag_first_block (response tag : str) :
  plain_tag tag →
  (∃ command, _parse_tag response tag = Some command)
  ∧ ((∃ pre inner post, tagged_block tag response pre inner post) →
       ∃ pre inner post, first_tagged_block tag response pre inner post)
  ∧ (∀ pre inner post, first_tagged_block tag response pre inner post →
       _parse_tag response tag = Some (strip inner))
  ∧ ((∀ pre inner post, ¬ tagged_block tag response pre inner post) →
       _parse_tag response tag = Some []).
Proof.
  intros Htag.
  destruct (parse_tag_plain_cases response tag Htag)
    as [(pre & inner & post & Hfirst & Heq)|[Hnone Heq]].
  - split; [eauto|]. split; [eauto|]. split.
    + intros pre' inner' post' Hfirst'.
      by rewrite (first_tagged_block_unique _ _ _ _ _ _ _ _ Hfirst' Hfirst).
    + intros Hno. destruct Hfirst as [Hb _]. by apply Hno in Hb.
  - split; [eauto|]. split; [|split; [|done]].
    + intros (pre & inner & post & Hb). by apply Hnone in Hb.
    + intros pre inner post [Hb _]. by apply Hnone in Hb.
Qed.

Lemma parse_tag_first_block_witness :
  plain_tag (lit "bash")
  ∧ _parse_tag (lit "ok:<bash>" ++ [nl] ++ lit " ls -l" ++ [nl] ++ lit "</bash> <bash>pwd</bash>")
               (lit "bash")
    = Some (strip ([nl] ++ lit " ls -l" ++ [nl])).
Proof.
  split; [by repeat constructor|].
  refine (proj1 (proj2 (proj2 (parse_tag_first_block _ (lit "bash") _)))
            (lit "ok:") _ (lit " <bash>pwd</bash>") _).
  - by repeat constructor.
  - split; [reflexivity|].
    intros pre' inner' post' Hb. unfold tagged_block in Hb.
    destruct pre' as [|c1 [|c2 [|c3 pre']]]; try (left; simpl; lia);
      try (exfalso; vm_compute in Hb; congruence).
    destruct pre' as [|c4 pre']; [|left; simpl; lia].
    right. split; [vm_compute in Hb; by injection Hb as <- <- <-|].
    vm_compute in Hb. injection Hb as <- <- <- Hb.
    do 8 (destruct inner' as [|? inner']; [exfalso; vm_compute in Hb; congruence|]).
    simpl. lia.
Defined.

(** C3, as stated, fails for a tag name with a special character: with the
    tag name [a.b] the dot is a wildcard, so the reply [<axb>hi</axb>], which
    holds no [<a.b>] block, yields [hi] and not the empty string. *)
Lemma parse_tag_wildcard_counterexample :
  (∀ pre inner post,
     ¬ tagged_block (lit "a.b") (lit "<axb>hi</axb>") pre inner post)
  ∧ _parse_tag (lit "<axb>hi</axb>") (lit "a.b") = Some (lit "hi")
  ∧ _parse_tag (lit "<axb>hi</axb>") (lit "a.b") ≠ Some [].
Proof.
  split; [|split; [reflexivity|by vm_compute]].
  intros pre inner post Hb. unfold tagged_block in Hb.
  assert (46%N ∈ lit "<axb>hi</axb>") as Hin.
  { rewrite Hb. apply elem_of_app. right. apply elem_of_app. left.
    apply list_elem_of_In. vm_compute. tauto. }
  apply list_elem_of_In in Hin. vm_compute in Hin. intuition congruence.
Qed.

(** *** Code-block filtering *)

Lemma kept_lines_no_linebreak (raw : str) : Forall no_linebreak (kept_lines raw).
Proof.
  unfold kept_lines. eapply Forall_impl; [|done].
  apply Forall_forall. intros l Hl. apply list_elem_of_filter in Hl as [_ Hl].
  by eapply (proj1 (Forall_forall _ _) (splitlines_no_linebreak raw)).
Qed.

Lemma drop_last_empty_sublist (lines : list str) :
  drop_last_empty lines `sublist_of` lines.
Proof.
  induction lines as [|l [|l2 ls] IH].
  - done.
  - destruct l; [by apply sublist_nil_l|done].
  - rewrite drop_last_empty_cons by done. by apply sublist_skip.
Qed.




(** *** One round *)

Section Rounds.
Context {Sandbox LLM Prompt : Type}.
Context (build : LLM → str → Prompt).

Lemma format_bash_execution_result_fields (process : CompletedProcess) :
  _format_bash_execution_result process
  = concat ((λ f, labelled_field f.1 f.2) <$> command_record_fields process).
Proof.
  unfold _format_bash_execution_result, command_record_fields, labelled_field.
  cbn [fmap list_fmap concat fst snd]. rewrite app_nil_r.
  by rewrite <-!app_assoc.
Qed.

(** C5: round handling always yields a prompt. If the command extracted from
    the reply is not empty, the tool executes it and the content of the next
    prompt is the Command Record in four labelled fields, in the order
    invocation, return code, stdout, stderr, whatever the return code; no
    warning is logged. If the extracted command is empty, because the reply
    holds no [bash] block or because the first block holds only white space,
    the tool is not run, a warning with the round number and the raw reply is
    logged, and the next prompt is built from the tool's usage description. *)
Theorem container_handle_bash_command_rounds
    (self : BaseAgent (Sandbox := Sandbox)) (cur_round : Z) (response : str)
    (tool : BaseTool (Sandbox := Sandbox)) (w : World (Sandbox := Sandbox)) :
  ∃ command,
    _parse_tag response (lit "bash") = Some command
    ∧ ((∀ pre inner post, ¬ tagged_block (lit "bash") response pre inner post) →
         command = [])
    ∧ (∀ pre inner post,
         first_tagged_block (lit "bash") response pre inner post →
         command = strip inner)
    ∧ (command ≠ [] →
         let process := (execute tool command (sandbox w)).1 in
         _container_handle_bash_command build self cur_round response tool w
         = Some (build (llm self)
                   (concat ((λ f, labelled_field f.1 f.2)
                              <$> command_record_fields process)),
                 {| log_records := log_records w;
                    sandbox := (execute tool command (sandbox w)).2 |})
         ∧ (command_record_fields process).*1
           = [lit "bash"; lit "return code"; lit "stdout"; lit "stderr"]
         ∧ (command_record_fields process).*2
           = [args process; str_of_int (returncode process);
              stdout process; stderr process])
    ∧ (command = [] →
         _container_handle_bash_command build self cur_round response tool w
         = Some (build (llm self)
                   (lit "No bash command received, Please follow the interaction protocols:"
                      ++ [nl] ++ tutorial tool),
                 {| log_records :=
                      log_records w
                      ++ [(WARNING,
                           lit "ROUND " ++ str_of_int cur_round
                             ++ lit " No BASH command from LLM response: "
                             ++ response)];
                    sandbox := sandbox w |})).
Proof.
  destruct (parse_tag_plain_cases response (lit "bash") bash_is_plain)
    as [(pre & inner & post & Hfirst & Heq)|[Hnone Heq]].
  - exists (strip inner). split; [done|]. split; [|split; [|split]].
    + intros Hno. destruct Hfirst as [Hb _]. by apply Hno in Hb.
    + intros pre' inner' post' Hfirst'.
      by rewrite (first_tagged_block_unique _ _ _ _ _ _ _ _ Hfirst' Hfirst).
    + intros Hne. unfold _container_handle_bash_command. rewrite Heq. simpl.
      destruct (strip inner) as [|c command]; [done|]. simpl.
      destruct (execute tool (c :: command) (sandbox w)) as [process box].
      by rewrite format_bash_execution_result_fields.
    + intros Hempty. unfold _container_handle_bash_command. rewrite Heq. simpl.
      by rewrite Hempty.
  - exists []. split; [done|]. split; [done|]. split; [|split; [done|]].
    + intros pre inner post [Hb _]. by apply Hnone in Hb.
    + intros _. unfold _container_handle_bash_command. by rewrite Heq.
Qed.

End Rounds.

(** The command record of a failing execution has the same four fields. *)
Lemma container_handle_bash_command_rounds_witness :
  let tool := {| tool_name := lit "container";
                 execute := λ command (box : list str),
                   ({| args := command; returncode := 127;
                       stdout := []; stderr := lit "not found" |},
                    box ++ [command]);
                 tutorial := lit "Wrap one command in <bash></bash>." |} in
  let self := {| trial := 1; llm := tt; tools := [tool];
                 name := lit "Prototyper"; dialog := [] |} in
  let w := {| log_records := []; sandbox := [] |} in
  lit "frob" ≠ []
  ∧ _container_handle_bash_command (λ _ text, text) self 3
      (lit "try <bash>frob</bash>") tool w
    = Some (lit "<bash>" ++ [nl] ++ lit "frob" ++ [nl] ++ lit "</bash>" ++ [nl]
            ++ lit "<return code>" ++ [nl] ++ lit "127" ++ [nl]
            ++ lit "</return code>" ++ [nl]
            ++ lit "<stdout>" ++ [nl] ++ [nl] ++ lit "</stdout>" ++ [nl]
            ++ lit "<stderr>" ++ [nl] ++ lit "not found" ++ [nl]
            ++ lit "</stderr>" ++ [nl],
            {| log_records := []; sandbox := [lit "frob"] |}).
Proof.
  intros tool self w. split; [by vm_compute|].
  destruct (container_handle_bash_command_rounds (λ _ text, text) self 3
              (lit "try <bash>frob</bash>") tool w)
    as (command & Hcommand & _ & _ & Hrun & _).
  vm_compute in Hcommand. injection Hcommand as <-.
  destruct Hrun as [Hrun _]; [by vm_compute|].
  rewrite Hrun. by vm_compute.
Defined.

End AgentProps.

(** ** The orchestrator *)

Module OrchestratorFacts.
Import Py Orchestrator.

Lemma bind_Ok {A B : Type} (m : M A) (f : A → M B) (w w' : World) (a : A) :
  m w = (Ok a, w') → (m ≫= f) w = f a w'.
Proof. intros Hm. unfold mbind, M_bind. by rewrite Hm. Qed.

Lemma bind_Raise {A B : Type} (m : M A) (f : A → M B) (w w' : World) e :
  m w = (Raise e, w') → (m ≫= f) w = (Raise e, w').
Proof. intros Hm. unfold mbind, M_bind. by rewrite Hm. Qed.

Lemma positive_lt (q : Q) : positive q = true ↔ (0 < q)%Q.
Proof.
  unfold positive. rewrite negb_true_iff, <-not_true_iff_false, Qle_bool_iff.
  split; [apply Qnot_le_lt|apply Qlt_not_le].
Qed.

Lemma splitext_app (p : str) : (Path.splitext p).1 ++ (Path.splitext p).2 = p.
Proof.
  unfold Path.splitext. destruct (_ && _); simpl.
  - apply take_drop.
  - apply app_nil_r.
Qed.

Section Facts.
Context `{Collaborators}.


(** The [try] statement always returns, and prints on the error stream only. *)
Lemma run_experiments_try_Ok (b : Benchmark) (args : Namespace) (w : World) :
  ∃ w', run_experiments_try b args w = (Ok (experiment_result b args), w')
        ∧ stdout w' = stdout w ∧ started w' = started w
        ∧ uploads w' = uploads w ∧ uuid_draws w' = uuid_draws w
        ∧ logging w' = logging w.
Proof.
  unfold run_experiments_try, experiment_result.
  destruct (experiment b args) as [e|aggregated]; eexists; split; try done.
Qed.

(** [time.sleep] returns or raises an [Exception], in either case without
    changing anything; it returns for the lengths it accepts. *)
Lemma time_sleep_cases (earlier : nat) (secs : Z) (w : World) :
  time_sleep earlier secs w = (Ok (), w)
  ∨ ∃ e, time_sleep earlier secs w = (Raise e, w) ∧ is_Exception e = true.
Proof.
  unfold time_sleep. destruct (_ || _); [right; by eexists|].
  destruct (secs <? 0); [right; by eexists|].
  destruct (clock_nanosleep earlier secs); [right; by eexists|by left].
Qed.

Lemma sleepable_spec (n : nat) (secs : Z) :
  sleepable n secs = true ↔
  0 ≤ secs ≤ 9223372036
  ∧ ∀ earlier, (earlier < n)%nat → clock_nanosleep earlier secs = None.
Proof.
  unfold sleepable. rewrite !andb_true_iff, !Z.leb_le, forallb_forall.
  split.
  - intros [[Hmin Hmax] Hall]. split; [lia|]. intros earlier Hearlier.
    eapply bool_decide_eq_true, Hall, in_seq. lia.
  - intros [Hrange Hall]. split; [lia|]. intros earlier Hin%in_seq.
    apply bool_decide_eq_true, Hall. lia.
Qed.

Lemma time_sleep_Ok (earlier : nat) (secs : Z) (w : World) :
  0 ≤ secs ≤ 9223372036 → clock_nanosleep earlier secs = None →
  time_sleep earlier secs w = (Ok (), w).
Proof.
  intros Hrange Hwait. unfold time_sleep. rewrite Hwait.
  destruct (Z.ltb_spec secs (-9223372036)) as [?|_]; [lia|].
  destruct (Z.ltb_spec 9223372036 secs) as [?|_]; [lia|]. simpl.
  by destruct (Z.ltb_spec secs 0) as [?|_]; [lia|].
Qed.

(** The workers take tasks without fail; only the record of the experiments
    that began grows. *)
Lemma take_tasks_Ok (n : nat) (p : Pool) (w : World) :
  ∃ w',
    take_tasks n p w
    = (Ok {| tasks := tasks p; taken := taken p `max` n;
             completed := completed p |}, w')
    ∧ started w'
      = started w ++ ((λ c, id c.1) <$> drop (taken p) (take n (tasks p)))
    ∧ stdout w' = stdout w ∧ uploads w' = uploads w
    ∧ uuid_draws w' = uuid_draws w ∧ logging w' = logging w.
Proof.
  unfold take_tasks. generalize (drop (taken p) (take n (tasks p))) as cs.
  intros cs.
  assert (∃ w', for_each cs (λ config, note_started config.1) w = (Ok (), w')
    ∧ started w' = started w ++ ((λ c, id c.1) <$> cs)
    ∧ stdout w' = stdout w ∧ uploads w' = uploads w
    ∧ uuid_draws w' = uuid_draws w ∧ logging w' = logging w)
    as (w' & Hrun & Heffects).
  { revert w. induction cs as [|c cs IH]; intros w.
    - exists w. simpl. by rewrite app_nil_r.
    - destruct (IH (note_started c.1 w).2) as (w' & Hrun & Hst & Hout & Hup & Hid & Hlog).
      exists w'. simpl for_each. erewrite bind_Ok; [|done].
      split; [exact Hrun|]. rewrite Hst, Hout, Hup, Hid, Hlog. simpl.
      by rewrite <-app_assoc. }
  exists w'. by rewrite (bind_Ok _ _ _ _ _ Hrun).
Qed.

Lemma print_experiment_result_Ok (r : Result) (w : World) :
  ∃ w', _print_experiment_result r w = (Ok (), w')
        ∧ uploads w' = uploads w ∧ uuid_draws w' = uuid_draws w
        ∧ started w' = started w.
Proof. by eexists. Qed.


Lemma submit_all_Ok (pause : Z) (configs : list (Benchmark * Namespace))
    (p : Pool) (w : World) :
  sleepable (length (tasks p) + length configs) pause = true →
  submit_all pause configs p w
  = (Ok (seq (length (tasks p)) (length configs),
         {| tasks := tasks p ++ configs; taken := taken p;
            completed := completed p |}), w).
Proof.
  intros [Hrange Hwaits]%sleepable_spec. revert p Hwaits.
  induction configs as [|config rest IH]; intros p Hwaits.
  - simpl. rewrite app_nil_r. by destruct p.
  - simpl in *.
    erewrite bind_Ok; [|apply time_sleep_Ok; [done|apply Hwaits; lia]].
    erewrite bind_Ok; [|apply IH; simpl; intros earlier Hearlier; apply Hwaits;
                        rewrite length_app in Hearlier; simpl in Hearlier; lia].
    simpl. rewrite length_app, <-app_assoc. simpl.
    by replace (length (tasks p) + 1)%nat with (S (length (tasks p))) by lia.
Qed.

(** A submission loop that returns has submitted every config and changed
    nothing else. *)
Lemma submit_all_inv (pause : Z) (configs : list (Benchmark * Namespace))
    (p : Pool) (w : World) (submitted : list nat * Pool) (w' : World) :
  submit_all pause configs p w = (Ok submitted, w') →
  submitted = (seq (length (tasks p)) (length configs),
               {| tasks := tasks p ++ configs; taken := taken p;
                  completed := completed p |})
  ∧ w' = w.
Proof.
  revert p submitted. induction configs as [|config rest IH]; intros p submitted.
  - simpl. rewrite app_nil_r. intros [= <- <-]. by destruct p.
  - simpl.
    destruct (time_sleep_cases (length (tasks p)) pause w) as [Hwait|(e & Hwait & _)].
    + rewrite (bind_Ok _ _ _ _ _ Hwait).
      destruct (submit_all pause rest
                  {| tasks := tasks p ++ [config]; taken := taken p;
                     completed := completed p |} w)
        as [[[handles p1]|e|] w1] eqn:Hrest;
        try (unfold mbind, M_bind; rewrite Hrest; done).
      rewrite (bind_Ok _ _ _ _ _ Hrest). intros [= <- <-].
      destruct (IH _ _ Hrest) as [[= -> ->] ->]. simpl.
      rewrite length_app, <-app_assoc. simpl.
      by replace (length (tasks p) + 1)%nat with (S (length (tasks p))) by lia.
    + by rewrite (bind_Raise _ _ _ _ _ Hwait).
Qed.

Lemma complete_Ok (k : nat) (p : Pool) (w : World) :
  pool_consistent p →
  ∃ p' w', complete k p w = (Ok p', w')
    ∧ pool_consistent p' ∧ tasks p' = tasks p
    ∧ (∀ h, is_Some (completed p !! h) → is_Some (completed p' !! h))
    ∧ ((k < length (tasks p))%nat → is_Some (completed p' !! k)).
Proof.
  intros Hp. unfold complete.
  destruct (tasks p !! k) as [[b args]|] eqn:Htask.
  - destruct (completed p !! k) as [r|] eqn:Hdone.
    + exists p, w. split; [done|]. split; [done|]. split; [done|].
      split; [done|]. intros _. by rewrite Hdone.
    + destruct (take_tasks_Ok (S k) p w) as (w0 & H0 & _).
      destruct (run_experiments_try_Ok b args w0) as (w1 & H1 & _).
      destruct (print_experiment_result_Ok (experiment_result b args) w1)
        as (w2 & H2 & _).
      eexists _, w2.
      rewrite (bind_Ok _ _ _ _ _ H0), (bind_Ok _ _ _ _ _ H1), (bind_Ok _ _ _ _ _ H2).
      split; [done|]. unfold pool_consistent. simpl. repeat split.
      * intros h r. destruct (decide (k = h)) as [->|Hne].
        -- rewrite lookup_insert_eq. intros [= <-]. by exists (b, args).
        -- rewrite lookup_insert_ne by done. apply Hp.
      * intros h Hh. destruct (decide (k = h)) as [->|Hne].
        -- by rewrite lookup_insert_eq.
        -- by rewrite lookup_insert_ne.
      * intros _. by rewrite lookup_insert_eq.
  - exists p, w. split; [done|]. split; [done|]. split; [done|].
    split; [done|]. intros Hk. apply lookup_ge_None in Htask. lia.
Qed.

Lemma task_get_Ok (h : nat) (schedule : list nat) (p : Pool) (w : World) :
  pool_consistent p → (h < length (tasks p))%nat →
  finishes_pending schedule p →
  ∃ r schedule' p' w',
    task_get h schedule p w = (Ok (r, schedule', p'), w')
    ∧ pool_consistent p' ∧ tasks p' = tasks p
    ∧ finishes_pending schedule' p'
    ∧ ∃ config, tasks p !! h = Some config ∧ r = result_of config.
Proof.
  revert p w. induction schedule as [|k schedule IH]; intros p w Hp Hh Hfin.
  - destruct (Hfin h Hh) as [Hin|[r Hr]]; [by apply elem_of_nil in Hin|].
    exists r, [], p, w. simpl. rewrite Hr. repeat split; auto.
  - simpl. destruct (completed p !! h) as [r|] eqn:Hdone.
    + exists r, (k :: schedule), p, w. repeat split; auto.
    + destruct (complete_Ok k p w Hp) as (p1 & w1 & H1 & Hp1 & Htasks & Hkeep & Hk).
      rewrite (bind_Ok _ _ _ _ _ H1).
      destruct (IH p1 w1) as (r & schedule' & p' & w' & Hget & Hp' & Htasks' & Hfin' & Hr).
      * done.
      * by rewrite Htasks.
      * intros h' Hh'. rewrite Htasks in Hh'.
        destruct (Hfin h' Hh') as [Hin|Hsome]; [|right; auto].
        apply elem_of_cons in Hin as [->|Hin]; [right; auto|by left].
      * exists r, schedule', p', w'. rewrite Htasks in Hr.
        repeat split; auto. congruence.
Qed.

Lemma gather_Ok (handles schedule : list nat) (p : Pool) (w : World) :
  pool_consistent p → Forall (λ h, (h < length (tasks p))%nat) handles →
  finishes_pending schedule p →
  ∃ results w',
    gather handles schedule p w = (Ok results, w')
    ∧ Forall2 (λ h r, ∃ config, tasks p !! h = Some config ∧ r = result_of config)
        handles results.
Proof.
  revert schedule p w.
  induction handles as [|h handles IH]; intros schedule p w Hp Hall Hfin.
  - exists [], w. by split; [|constructor].
  - inversion Hall as [|?? Hh Hrest]; subst.
    destruct (task_get_Ok h schedule p w Hp Hh Hfin)
      as (r & schedule' & p' & w' & Hget & Hp' & Htasks & Hfin' & Hr).
    destruct (IH schedule' p' w' Hp') as (results & w'' & Hgather & Hresults).
    { by rewrite Htasks. }
    { done. }
    exists (r :: results), w''. simpl.
    rewrite (bind_Ok _ _ _ _ _ Hget), (bind_Ok _ _ _ _ _ Hgather).
    split; [done|]. constructor; [done|]. by rewrite <-Htasks.
Qed.

Lemma Forall2_seq_results (configs : list (Benchmark * Namespace))
    (results : list Result) :
  Forall2 (λ h r, ∃ config, configs !! h = Some config ∧ r = result_of config)
    (seq 0 (length configs)) results →
  results = result_of <$> configs.
Proof.
  intros Hall. apply list_eq. intros i. rewrite list_lookup_fmap.
  destruct (configs !! i) as [config|] eqn:Hc; simpl.
  - assert (seq 0 (length configs) !! i = Some i) as Hi.
    { apply lookup_seq. split; [done|]. by eapply lookup_lt_Some. }
    destruct (Forall2_lookup_l _ _ _ _ _ Hall Hi) as (r & Hr & config' & Hc' & ->).
    rewrite Hr. congruence.
  - apply lookup_ge_None. apply lookup_ge_None in Hc.
    apply Forall2_length in Hall. rewrite length_seq in Hall. lia.
Qed.

(** The worker-pool branch returns the results in submission order. *)
Lemma run_pool_Ok (NUM_EXP : Z) (args : Namespace)
    (configs : list (Benchmark * Namespace)) (schedule : list nat) (w : World) :
  1 < NUM_EXP → sleepable (length configs) (delay args) = true →
  completes_all (length configs) schedule →
  ∃ w', run_pool NUM_EXP args configs schedule w
        = (Ok (result_of <$> configs), w').
Proof.
  intros HP Hdelay Hsched. unfold run_pool, Pool_new.
  destruct (Z.ltb_spec NUM_EXP 1) as [?|_]; [lia|].
  erewrite bind_Ok; [|done].
  erewrite bind_Ok; [|by apply submit_all_Ok]. simpl.
  destruct (gather_Ok (seq 0 (length configs)) schedule
              {| tasks := configs; taken := 0; completed := ∅ |} w)
    as (results & w' & Hgather & Hresults).
  - intros h r. simpl. by rewrite lookup_empty.
  - apply Forall_seq. simpl. lia.
  - intros h Hh. left. by apply Hsched.
  - exists w'. rewrite Hgather. by rewrite (Forall2_seq_results _ _ Hresults).
Qed.

End Facts.

End OrchestratorFacts.

Module OrchestratorProps.
Import Py Orchestrator OrchestratorFacts.

Section Scheduling.
Context `{Collaborators}.




End Scheduling.



(** So does a pause of ten thousand million seconds, which is not negative:
    its count of nanoseconds does not fit 64 bits. *)
Example run_pool_huge_delay :
  let args := Demo.namespace None (Some (lit "benchmarks")) 2 (10 ^ 10) in
  (run_all (H := Demo.collaborators) 2 args [(Demo.bench "decode", args)]
     [0%nat] Demo.w0).1
  = Raise (OverflowError (lit "timestamp too large to convert to C _PyTime_t")).
Proof. by vm_compute. Qed.




End OrchestratorProps.

(** ** Promotion of the best targets *)

Module PromotionProps.
Import Py Orchestrator OrchestratorFacts.

Section Promotion.
Context `{Collaborators}.

Lemma promote_one_Ok (save_bucket label rand_id : str) (r : Result) (w : World) :
  ∃ w', promote_one save_bucket label rand_id r w = (Ok (), w')
    ∧ uploads w'
      = uploads w ++ option_list (promotion save_bucket label rand_id r)
    ∧ uuid_draws w' = uuid_draws w ∧ started w' = started w
    ∧ stdout w' = stdout w.
Proof.
  unfold promote_one, promotion. destruct (result r) as [aggregated|?].
  - destruct (positive (max_line_coverage_diff aggregated)).
    + by eexists.
    + eexists. split; [done|]. simpl. by rewrite app_nil_r.
  - eexists. split; [done|]. simpl. by rewrite app_nil_r.
Qed.

Lemma promote_all_Ok (save_bucket label rand_id : str) (results : list Result)
    (w : World) :
  ∃ w', for_each results (promote_one save_bucket label rand_id) w = (Ok (), w')
    ∧ uploads w'
      = uploads w ++ omap (promotion save_bucket label rand_id) results
    ∧ uuid_draws w' = uuid_draws w ∧ started w' = started w
    ∧ stdout w' = stdout w.
Proof.
  revert w. induction results as [|r results IH]; intros w.
  - exists w. simpl. by rewrite app_nil_r.
  - destruct (promote_one_Ok save_bucket label rand_id r w)
      as (w1 & H1 & Hup1 & Hid1 & Hst1 & Hout1).
    destruct (IH w1) as (w2 & H2 & Hup2 & Hid2 & Hst2 & Hout2).
    exists w2. simpl for_each. rewrite (bind_Ok _ _ _ _ _ H1), H2.
    split; [done|]. rewrite Hup2, Hup1, Hid2, Hid1, Hst2, Hst1, Hout2, Hout1.
    split; [|done]. rewrite <-app_assoc. f_equal. simpl.
    by destruct (promotion save_bucket label rand_id r).
Qed.

Lemma save_best_target_Ok (results : list Result) (save_bucket exp_name : str)
    (w : World) :
  ∃ w', _save_best_target results save_bucket exp_name w = (Ok (), w')
    ∧ uploads w'
      = uploads w
        ++ omap (promotion save_bucket (run_label exp_name)
                   (before_first 45%N (uuid4 (uuid_draws w)))) results
    ∧ uuid_draws w' = S (uuid_draws w) ∧ started w' = started w
    ∧ stdout w' = stdout w.
Proof.
  destruct (promote_all_Ok save_bucket (run_label exp_name)
              (before_first 45%N (uuid4 (uuid_draws w))) results
              (draw_uuid4 w).2)
    as (w' & Hrun & Hup & Hdraws & Hstarted & Hout).
  exists w'. unfold _save_best_target. by erewrite bind_Ok.
Qed.

Lemma promotion_Some (save_bucket label rand_id : str) (r : Result)
    (u : str * str * str) :
  promotion save_bucket label rand_id r = Some u ↔
  ∃ aggregated,
    result r = Aggregated aggregated
    ∧ (0 < max_line_coverage_diff aggregated)%Q
    ∧ u = (save_bucket, save_name (benchmark r) aggregated label rand_id,
           max_coverage_diff_sample aggregated).
Proof.
  unfold promotion. destruct (result r) as [aggregated|description].
  - destruct (positive (max_line_coverage_diff aggregated)) eqn:Hpos.
    + apply positive_lt in Hpos. split.
      * intros [= <-]. by exists aggregated.
      * intros (a & [= <-] & _ & ->). done.
    + split; [done|]. intros (a & [= <-] & Hlt & _).
      apply positive_lt in Hlt. congruence.
  - split; [done|]. intros (a & [=] & _).
Qed.

(** C6: promotion uploads an artifact for a result exactly when the result is
    an Aggregated Outcome whose coverage differential is greater than zero:
    the uploads it adds are those of the promoted results, in order. Results
    with a differential of zero or below, and Failure results, add none. The
    uploaded file is the best target, and its key is made of the project, the
    function name, the coverage differential, the run label and the random
    suffix, and ends in the extension of the best target's file name. *)
Theorem save_best_target_uploads (results : list Result)
    (save_bucket exp_name : str) (w : World) :
  let rand_id := before_first 45%N (uuid4 (uuid_draws w)) in
  let label := run_label exp_name in
  ∃ w',
    _save_best_target results save_bucket exp_name w = (Ok (), w')
    ∧ uploads w' = uploads w ++ omap (promotion save_bucket label rand_id) results
    ∧ (∀ u, u ∈ omap (promotion save_bucket label rand_id) results ↔
         ∃ r aggregated,
           r ∈ results ∧ result r = Aggregated aggregated
           ∧ (0 < max_line_coverage_diff aggregated)%Q
           ∧ u = (save_bucket,
                  lit "llm_generated_targets/" ++ project (benchmark r) ++ lit "/"
                  ++ function_name (benchmark r) ++ lit "-"
                  ++ float_str (max_line_coverage_diff aggregated) ++ lit "-"
                  ++ label ++ lit "-" ++ rand_id
                  ++ (Path.splitext (max_coverage_diff_sample aggregated)).2,
                  max_coverage_diff_sample aggregated))
    ∧ (∀ r, r ∈ results →
         (∀ description, result r = Failure description →
            promotion save_bucket label rand_id r = None)
         ∧ (∀ aggregated, result r = Aggregated aggregated →
              (max_line_coverage_diff aggregated <= 0)%Q →
              promotion save_bucket label rand_id r = None))
    ∧ (∀ file, (Path.splitext file).1 ++ (Path.splitext file).2 = file).
Proof.
  intros rand_id label.
  destruct (save_best_target_Ok results save_bucket exp_name w)
    as (w' & Hrun & Hup & _).
  exists w'. split; [done|]. split; [done|]. split; [|split].
  - intros u. rewrite list_elem_of_omap. split.
    + intros (r & Hr & Hu). apply promotion_Some in Hu as (a & Ha & Hlt & ->).
      by exists r, a.
    + intros (r & a & Hr & Ha & Hlt & ->). exists r. split; [done|].
      apply promotion_Some. by exists a.
  - intros r _. split.
    + intros description Hres. unfold promotion. by rewrite Hres.
    + intros aggregated Hres Hle. unfold promotion. rewrite Hres.
      destruct (positive (max_line_coverage_diff aggregated)) eqn:Hpos; [|done].
      apply positive_lt in Hpos. by apply Qlt_not_le in Hpos.
  - apply splitext_app.
Qed.

(** C10: one invocation of the promotion draws exactly one random value,
    before the loop, and every key it uploads ends in that one suffix followed
    by the extension of the uploaded file. The suffix does not tell the
    artifacts of one invocation apart: two promoted results with the same
    benchmark, coverage differential and extension get the same key. *)
Theorem save_best_target_one_suffix (results : list Result)
    (save_bucket exp_name : str) (w : World) :
  let rand_id := before_first 45%N (uuid4 (uuid_draws w)) in
  ∃ w' added,
    _save_best_target results save_bucket exp_name w = (Ok (), w')
    ∧ uuid_draws w' = S (uuid_draws w)
    ∧ uploads w' = uploads w ++ added
    ∧ (∀ bucket key file, (bucket, key, file) ∈ added →
         ∃ stem, key = stem ++ lit "-" ++ rand_id ++ (Path.splitext file).2)
    ∧ (∀ r1 r2 a1 a2,
         result r1 = Aggregated a1 → result r2 = Aggregated a2 →
         benchmark r1 = benchmark r2 →
         max_line_coverage_diff a1 = max_line_coverage_diff a2 →
         (Path.splitext (max_coverage_diff_sample a1)).2
         = (Path.splitext (max_coverage_diff_sample a2)).2 →
         save_name (benchmark r1) a1 (run_label exp_name) rand_id
         = save_name (benchmark r2) a2 (run_label exp_name) rand_id).
Proof.
  intros rand_id.
  destruct (save_best_target_Ok results save_bucket exp_name w)
    as (w' & Hrun & Hup & Hdraws & _).
  exists w', (omap (promotion save_bucket (run_label exp_name) rand_id) results).
  split; [done|]. split; [done|]. split; [done|]. split.
  - intros bucket key file Hin. apply list_elem_of_omap in Hin as (r & _ & Hu).
    apply promotion_Some in Hu as (a & _ & _ & [= -> -> ->]).
    unfold save_name.
    exists (lit "llm_generated_targets/" ++ project (benchmark r) ++ lit "/"
            ++ function_name (benchmark r) ++ lit "-"
            ++ float_str (max_line_coverage_diff a) ++ lit "-"
            ++ run_label exp_name).
    by rewrite <-!app_assoc.
  - intros r1 r2 a1 a2 _ _ Hb Hcov Hext. unfold save_name.
    by rewrite Hb, Hcov, Hext.
Qed.

End Promotion.

(** The example of the specification: differentials 0 and 5 for the same
    project, and a failed experiment; only the second artifact is uploaded. *)
Example save_best_target_zero_and_five :
  (_save_best_target (H := Demo.collaborators)
     [Demo.outcome_of "decode" 0 "out/decode/02.cc";
      Demo.outcome_of "inflate" 5 "out/inflate/01.cpp";
      {| benchmark := Demo.bench "parse"; result := Failure (lit "build failed") |}]
     (lit "best-targets") [] Demo.w0).2.(uploads)
  = [(lit "best-targets",
      lit "llm_generated_targets/libpng/inflate-5-2024-05-01-builder-1b9d6bcd.cpp",
      lit "out/inflate/01.cpp")].
Proof. by vm_compute. Qed.

Example splitext_examples :
  Path.splitext (lit "out/a.b/target") = (lit "out/a.b/target", [])
  ∧ Path.splitext (lit "out/.hidden") = (lit "out/.hidden", [])
  ∧ Path.splitext (lit "out/x.tar.gz") = (lit "out/x.tar", lit ".gz")
  ∧ Path.splitext (lit "..cc") = (lit "..cc", []).
Proof. by vm_compute. Qed.

End PromotionProps.

(** ** Argument validation and config expansion *)

Module ArgumentProps.
Import Py Orchestrator OrchestratorFacts.

Lemma startswith_prefix (p s : str) :
  startswith p s = true ↔ ∃ rest, s = p ++ rest.
Proof.
  revert s. induction p as [|a p IH]; intros s; simpl.
  - split; [by exists s|done].
  - destruct s as [|b s]; [split; [done|by intros [? ?]]|].
    rewrite andb_true_iff, N.eqb_eq, IH. split.
    + intros [-> [rest ->]]. by exists rest.
    + intros [rest [= -> ->]]. eauto.
Qed.

Lemma endswith_suffix (p s : str) :
  endswith p s = true ↔ ∃ pre, s = pre ++ p.
Proof.
  unfold endswith. rewrite startswith_prefix. split.
  - intros [rest Hs]. exists (reverse rest).
    by rewrite <-(reverse_involutive s), Hs, reverse_app, reverse_involutive.
  - intros [pre ->]. exists (reverse pre). by rewrite reverse_app.
Qed.

Lemma dot_yml_is_yaml_name (file : str) :
  endswith (lit ".yaml") file = true ∨ endswith (lit ".yml") file = true →
  is_yaml_name file = true.
Proof.
  unfold is_yaml_name. intros [->|Hyml]; [done|].
  apply orb_true_iff. right.
  apply endswith_suffix in Hyml as [pre ->]. apply endswith_suffix.
  exists (pre ++ lit "."). by rewrite <-app_assoc.
Qed.

Section Arguments.
Context `{Collaborators}.

(** [parse_args] returns the namespace when all its checks pass, and raises
    an [AssertionError] otherwise; it changes nothing around it. *)
Lemma parse_args_accepted (argv : list str) (args : Namespace) (w : World) :
  ArgumentParser_parse_args argv = inr args →
  if accepted args then parse_args argv w = (Ok args, w)
  else ∃ msg, parse_args argv w = (Raise (AssertionError msg), w).
Proof.
  intros Hargv. unfold parse_args, accepted. rewrite Hargv.
  unfold mbind, M_bind, assert, raise, mret, M_ret.
  destruct (num_samples args =? 0); simpl;
    [|destruct (0 <? num_samples args); simpl; [|by eexists]].
  all: destruct (Qeq_bool (temperature args) 0); simpl;
    [|destruct (Qle_bool (temperature args) 2); simpl; [|by eexists];
      destruct (Qle_bool 0 (temperature args)); simpl; [|by eexists]].
  all: destruct (truthy_opt (benchmark_yaml args)); simpl;
    [destruct (is_yaml_name (str_of_opt (benchmark_yaml args))); simpl;
       [|by eexists]|].
  all: destruct (truthy_opt (benchmarks_directory args)); simpl;
    try by eexists.
  all: destruct (isdir (template_directory args)); simpl; [|by eexists].
  all: destruct (eqb _ _); simpl; [done|by eexists].
Qed.

Lemma listed_violation_rejected (args : Namespace) :
  listed_violation args → accepted args = false.
Proof.
  unfold listed_violation, accepted.
  intros [[-> ->]|[[-> ->]|[[-> ->]|[[-> ->]|[Ht|[Ht|[->|[Hn|[-> ->]]]]]]]]];
    simpl; rewrite ?andb_false_r; try done.
  - assert (Qle_bool 0 (temperature args) = false) as ->.
    { apply not_true_iff_false. rewrite Qle_bool_iff. by apply Qlt_not_le. }
    assert (Qeq_bool (temperature args) 0 = false) as ->.
    { apply not_true_iff_false. intros Heq. apply Qeq_bool_eq in Heq.
      rewrite Heq in Ht. by apply Qlt_irrefl in Ht. }
    by rewrite andb_false_r, andb_false_r.
  - assert (Qle_bool (temperature args) 2 = false) as ->.
    { apply not_true_iff_false. rewrite Qle_bool_iff. by apply Qlt_not_le. }
    assert (Qeq_bool (temperature args) 0 = false) as ->.
    { apply not_true_iff_false. intros Heq. apply Qeq_bool_eq in Heq.
      rewrite Heq in Ht. by vm_compute in Ht. }
    by rewrite andb_false_r.
  - destruct (Z.eqb_spec (num_samples args) 0) as [?|_]; [lia|].
    by destruct (Z.ltb_spec 0 (num_samples args)) as [?|_]; [lia|].
Qed.

Lemma well_formed_accepted (args : Namespace) :
  well_formed args → accepted args = true.
Proof.
  unfold well_formed, accepted.
  intros (Hxor & Hyaml & Hcloud & Ht0 & Ht2 & Hdir & Hn).
  rewrite Hxor, Hdir, Hcloud, eqb_reflx.
  apply Qle_bool_iff in Ht0, Ht2. rewrite Ht0, Ht2.
  destruct (Z.ltb_spec 0 (num_samples args)) as [_|?]; [|lia].
  rewrite !orb_true_r. simpl.
  destruct (truthy_opt (benchmark_yaml args)); [|done].
  simpl. rewrite dot_yml_is_yaml_name; auto.
Qed.

(** A directory is expanded into the configs of the files it lists whose
    name ends in [.yaml] or in [yml]. *)
Lemma get_experiment_configs_directory (args : Namespace) (directory : str)
    (w : World) :
  truthy_opt (benchmark_yaml args) = false →
  benchmarks_directory args = Some directory →
  get_experiment_configs args w
  = (Ok ((λ config, (config, args))
           <$> concat (Benchmark_from_yaml
                         <$> (Path.join directory
                                <$> filter (λ file, is_yaml_name file = true)
                                      (listdir (Some directory))))), w).
Proof.
  intros Hyaml Hdir. unfold get_experiment_configs. by rewrite Hyaml, Hdir.
Qed.

(** C7, as amended: argument parsing aborts, before any experiment has
    started, when [argparse] itself exits, and whenever both benchmark sources
    are given, neither is given, a cloud experiment name is given without a
    cloud bucket, a cloud bucket is given without a cloud name, the
    temperature lies outside the range from 0 to 2, the template directory
    does not exist, the sample count is negative, or the benchmark file's name
    ends neither in [.yaml] nor in [yml]. Parsing succeeds and returns the
    arguments when exactly one source is given, a given benchmark file is
    named [*.yaml] or [*.yml], the cloud name and bucket are both given or
    both absent, the temperature lies within the range, the template
    directory exists and the sample count is positive. *)
Theorem parse_args_validation (argv : list str) (w : World) :
  match ArgumentParser_parse_args argv with
  | inl code =>
      parse_args argv w = (Raise (SystemExit code), w)
      ∧ ∀ NUM_EXP schedule,
          main NUM_EXP argv schedule w = (Raise (SystemExit code), w)
  | inr args =>
      (listed_violation args →
         ∃ msg,
           parse_args argv w = (Raise (AssertionError msg), w)
           ∧ ∀ NUM_EXP schedule,
               main NUM_EXP argv schedule w = (Raise (AssertionError msg), w))
      ∧ (well_formed args → parse_args argv w = (Ok args, w))
  end.
Proof.
  destruct (ArgumentParser_parse_args argv) as [code|args] eqn:Hargv.
  - assert (parse_args argv w = (Raise (SystemExit code), w)) as Hparse
      by (unfold parse_args; by rewrite Hargv).
    split; [done|]. intros NUM_EXP schedule. unfold main.
    by rewrite (bind_Raise _ _ _ _ _ Hparse).
  - pose proof (parse_args_accepted argv args w Hargv) as Hparse. split.
    + intros Hbad. rewrite (listed_violation_rejected _ Hbad) in Hparse.
      destruct Hparse as [msg Hparse]. exists msg. split; [done|].
      intros NUM_EXP schedule. unfold main.
      by rewrite (bind_Raise _ _ _ _ _ Hparse).
    + intros Hgood. by rewrite (well_formed_accepted _ Hgood) in Hparse.
Qed.

End Arguments.

Lemma parse_args_validation_witness :
  well_formed (H := Demo.collaborators) Demo.args0
  ∧ parse_args (H := Demo.collaborators) [lit "-b"; lit "benchmarks"] Demo.w0
    = (Ok Demo.args0, Demo.w0)
  ∧ listed_violation (H := Demo.collaborators)
      (Demo.namespace (Some (lit "bench.txt")) None 2 0)
  ∧ ∃ msg, ∀ NUM_EXP schedule,
      main (H := Demo.collaborators) NUM_EXP [lit "-y"; lit "bench.txt"]
        schedule Demo.w0
      = (Raise (AssertionError msg), Demo.w0).
Proof.
  assert (well_formed (H := Demo.collaborators) Demo.args0) as Hgood.
  { unfold well_formed. split; [by vm_compute|]. split; [by vm_compute|].
    split; [by vm_compute|]. split; [by vm_compute|]. split; [by vm_compute|].
    split; by vm_compute. }
  assert (listed_violation (H := Demo.collaborators)
            (Demo.namespace (Some (lit "bench.txt")) None 2 0)) as Hbad.
  { unfold listed_violation. do 8 right. by vm_compute. }
  split; [done|]. split; [|split; [done|]].
  - exact (proj2 (parse_args_validation (H := Demo.collaborators)
                    [lit "-b"; lit "benchmarks"] Demo.w0) Hgood).
  - destruct (proj1 (parse_args_validation (H := Demo.collaborators)
                       [lit "-y"; lit "bench.txt"] Demo.w0) Hbad)
      as (msg & _ & Hmain).
    by exists msg.
Defined.

(** C7, as stated, fails in both directions: a sample count of zero is one of
    the listed errors but passes the check, and a benchmark file without a
    YAML name is none of the listed errors but aborts the parsing. *)
Lemma parse_args_counterexample :
  let zero_samples := Demo.namespace None (Some (lit "benchmarks")) 0 0 in
  let text_file := Demo.namespace (Some (lit "bench.txt")) None 2 0 in
  (stated_violation (H := Demo.collaborators) zero_samples
   ∧ parse_args (H := Demo.collaborators)
       [lit "-b"; lit "benchmarks"; lit "-n"; lit "0"] Demo.w0
     = (Ok zero_samples, Demo.w0))
  ∧ (¬ stated_violation (H := Demo.collaborators) text_file
     ∧ parse_args (H := Demo.collaborators) [lit "-y"; lit "bench.txt"] Demo.w0
       = (Raise (AssertionError (lit "--benchmark-yaml needs to take an YAML file.")),
          Demo.w0)).
Proof.
  intros zero_samples text_file. split; split; try by vm_compute.
  - unfold stated_violation. do 7 right. by vm_compute.
  - unfold stated_violation.
    intros [[_ Hf]|[[Hf _]|[[Hf _]|[[_ Hf]|[Hf|[Hf|[Hf|Hf]]]]]]];
      by vm_compute in Hf.
Qed.

Example parse_args_accepts_directory :
  parse_args (H := Demo.collaborators) [lit "-b"; lit "benchmarks"] Demo.w0
  = (Ok Demo.args0, Demo.w0).
Proof. by vm_compute. Qed.

(** C9 fails on the code: the test for the second extension is
    [file.endswith('yml')], without the dot, so a directory entry such as
    [old.notyml], whose extension is not a YAML extension, is expanded into
    configs like [png.yaml]; [notes.txt] is left out. *)
Theorem get_experiment_configs_yml_suffix :
  let config_of file :=
    ({| id := file; project := lit "libpng"; function_name := file;
        function_signature := file |}, Demo.args0) in
  listdir (Collaborators := Demo.collaborators) (Some (lit "benchmarks"))
  = [lit "png.yaml"; lit "notes.txt"; lit "old.notyml"]
  ∧ (Path.splitext (lit "old.notyml")).2 = lit ".notyml"
  ∧ get_experiment_configs (H := Demo.collaborators) Demo.args0 Demo.w0
    = (Ok [config_of (lit "benchmarks/png.yaml");
           config_of (lit "benchmarks/old.notyml")], Demo.w0).
Proof. by vm_compute. Qed.

End ArgumentProps.

(** * Further properties of the agent *)

Module AgentExtra.
Import Py Re Agent PyFacts ReFacts AgentProps.

Lemma lstrip_all_space (ws s : str) : all_space ws → lstrip (ws ++ s) = lstrip s.
Proof. induction 1 as [|c ws Hc _ IH]; [done|]. simpl. by rewrite Hc. Qed.

Lemma lstrip_app (s after : str) :
  lstrip s ≠ [] → lstrip (s ++ after) = lstrip s ++ after.
Proof.
  induction s as [|c s IH]; [done|]. simpl.
  destruct (is_space c); [apply IH|done].
Qed.

Lemma rstrip_all_space (s after : str) :
  all_space after → rstrip (s ++ after) = rstrip s.
Proof.
  intros Ha. unfold rstrip. rewrite reverse_app.
  rewrite lstrip_all_space; [done|by apply Forall_reverse].
Qed.

Lemma strip_all_space (before s after : str) :
  all_space before → all_space after →
  strip (before ++ s ++ after) = strip s.
Proof.
  intros Hb Ha. unfold strip. rewrite lstrip_all_space by done.
  destruct (decide (lstrip s = [])) as [Hs|Hs].
  - destruct (lstrip_spec s) as (ws & Heq & Hws & _).
    rewrite Hs, app_nil_r in Heq. subst ws.
    rewrite Hs. rewrite <-(app_nil_r (s ++ after)), lstrip_all_space; [done|].
    by apply Forall_app.
  - rewrite lstrip_app by done. by apply rstrip_all_space.
Qed.

Lemma strip_trimmed (s : str) : trimmed (strip s).
Proof. destruct (strip_spec s) as (? & ? & _ & _ & _ & ? & ?). by split. Qed.

Lemma strip_occurs_in (s : str) : occurs_in (strip s) s.
Proof. destruct (strip_spec s) as (b & a & Hs & _). by exists b, a. Qed.

Section Tools.
Context {Sandbox : Type}.

(** X1: [get_tool] returns the first tool of the agent with the wanted name,
    and [None] exactly when no tool has that name. *)
Theorem get_tool_first_match (tools : list (BaseTool (Sandbox := Sandbox)))
    (wanted : str) :
  match get_tool tools wanted with
  | Some tool =>
      ∃ before after,
        tools = before ++ tool :: after ∧ tool_name tool = wanted
        ∧ Forall (λ t, tool_name t ≠ wanted) before
  | None => Forall (λ t, tool_name t ≠ wanted) tools
  end.
Proof.
  induction tools as [|tool rest IH]; [constructor|]. simpl.
  case_bool_decide as Hname.
  - exists [], rest. split; [done|]. split; [done|constructor].
  - destruct (get_tool rest wanted) as [found|].
    + destruct IH as (before & after & -> & Hfound & Hbefore).
      exists (tool :: before), after. split; [done|]. split; [done|].
      by constructor.
    + by constructor.
Qed.

End Tools.

Lemma parse_tag_shape (response tag command : str) :
  plain_tag tag → _parse_tag response tag = Some command →
  occurs_in command response ∧ trimmed command
  ∧ ¬ occurs_in (close_tag tag) command.
Proof.
  intros Htag Hparse.
  destruct (parse_tag_plain_cases response tag Htag)
    as [(pre & inner & post & [Hb Hmin] & Heq)|[_ Heq]];
    rewrite Heq in Hparse; injection Hparse as <-.
  - split; [|split; [apply strip_trimmed|]].
    + destruct (strip_occurs_in inner) as (b & a & Hinner).
      exists (pre ++ open_tag tag ++ b), (a ++ close_tag tag ++ post).
      rewrite Hb. rewrite Hinner at 1. by rewrite <-!app_assoc.
    + intros (x & y & Hxy).
      destruct (strip_occurs_in inner) as (b & a & Hinner).
      destruct (Hmin pre (b ++ x) (y ++ a ++ close_tag tag ++ post))
        as [Hlt|[_ Hle]].
      * unfold tagged_block. rewrite Hb. rewrite Hinner at 1. rewrite Hxy.
        by rewrite <-!app_assoc.
      * lia.
      * rewrite Hinner, Hxy in Hle. rewrite !length_app in Hle.
        unfold close_tag in Hle. simpl in Hle. lia.
  - split; [by exists [], response|]. split; [by split|].
    intros (x & y & Hxy). destruct x; done.
Qed.

(** X2: with a plain tag name, the text [_parse_tag] returns is a contiguous
    part of the reply, neither starts nor ends with white space, and never
    contains the closing tag. *)
Theorem parse_tag_result_shape (response tag command : str) :
  plain_tag tag → _parse_tag response tag = Some command →
  occurs_in command response ∧ trimmed command
  ∧ ¬ occurs_in (close_tag tag) command.
Proof. apply parse_tag_shape. Qed.

Lemma parse_tag_result_shape_witness :
  plain_tag (lit "bash")
  ∧ _parse_tag (lit "<bash> make </bash></bash>") (lit "bash") = Some (lit "make")
  ∧ trimmed (lit "make").
Proof.
  split; [by repeat constructor|]. split; [by vm_compute|].
  exact (proj1 (proj2 (parse_tag_result_shape (lit "<bash> make </bash></bash>")
                         (lit "bash") (lit "make")
                         ltac:(by repeat constructor) eq_refl))).
Defined.

Lemma join_linebreaks (lines : list str) :
  Forall no_linebreak lines →
  Forall (λ c, is_linebreak c = true → c = nl) (join [nl] lines).
Proof.
  induction 1 as [|p ps Hp Hps IH]; [constructor|].
  assert (Forall (λ c, is_linebreak c = true → c = nl) p) as Hp'.
  { eapply Forall_impl; [exact Hp|]. simpl. congruence. }
  destruct ps as [|p2 ps]; [done|].
  rewrite join_cons by done. apply Forall_app. split; [done|].
  apply Forall_app. split; [by repeat constructor|done].
Qed.

(** X3: the lines of a filtered block are the kept lines of the input, but
    for an empty last line; none of them is a fence line, and the only line
    terminator left in the block is the line feed. *)
Theorem filter_code_output (raw : str) :
  splitlines (_filter_code raw) = drop_last_empty (kept_lines raw)
  ∧ Forall (λ line, is_fence line = false) (splitlines (_filter_code raw))
  ∧ Forall (λ c, is_linebreak c = true → c = nl) (_filter_code raw).
Proof.
  pose proof (kept_lines_no_linebreak raw) as Hnb.
  assert (splitlines (_filter_code raw) = drop_last_empty (kept_lines raw)) as Hs
    by (unfold _filter_code; by apply splitlines_join).
  split; [done|]. split; [|by apply join_linebreaks].
  rewrite Hs. apply Forall_forall. intros l Hl.
  assert (l ∈ kept_lines raw) as Hk
    by (eapply elem_of_sublist; [done|apply drop_last_empty_sublist]).
  by apply list_elem_of_filter in Hk as [? _].
Qed.

Lemma splitlines_app_crlf (p rest : str) :
  no_linebreak p → splitlines (p ++ cr :: nl :: rest) = p :: splitlines rest.
Proof.
  induction 1 as [|c p Hc Hp IH]; [done|]. simpl. by rewrite Hc, IH.
Qed.

Lemma splitlines_join_crlf (lines : list str) :
  Forall no_linebreak lines →
  splitlines (join [cr; nl] lines) = drop_last_empty lines.
Proof.
  induction 1 as [|p ps Hp Hps IH]; [done|].
  destruct ps as [|p2 ps].
  - simpl. rewrite splitlines_line by done. by destruct p.
  - rewrite join_cons, drop_last_empty_cons by done.
    cbn [app]. by rewrite splitlines_app_crlf, IH.
Qed.

Lemma drop_last_empty_id (lines : list str) :
  last lines ≠ Some [] → drop_last_empty lines = lines.
Proof.
  induction lines as [|l [|l2 ls] IH]; [done| |].
  - by destruct l.
  - intros Hlast. rewrite drop_last_empty_cons by done. f_equal.
    apply IH. by rewrite last_cons_cons in Hlast.
Qed.

(** X4: code without fence lines whose last line is not empty comes back as
    it is when its lines end in line feeds, and with every line end turned
    into a line feed when they end in carriage return and line feed. *)
Theorem filter_code_clean_text (lines : list str) :
  Forall no_linebreak lines → Forall (λ l, is_fence l = false) lines →
  last lines ≠ Some [] →
  _filter_code (join [nl] lines) = join [nl] lines
  ∧ _filter_code (join [cr; nl] lines) = join [nl] lines.
Proof.
  intros Hnb Hfence Hlast.
  assert (filter (λ line, is_fence line = false) lines = lines) as Hkeep.
  { apply filter_all. by apply Forall_forall. }
  unfold _filter_code, kept_lines.
  rewrite splitlines_join, splitlines_join_crlf by done.
  by rewrite drop_last_empty_id, Hkeep.
Qed.

Lemma filter_code_clean_text_witness :
  let lines := [lit "int x;"; []; lit "return x;"] in
  Forall no_linebreak lines ∧ Forall (λ l, is_fence l = false) lines
  ∧ last lines ≠ Some []
  ∧ _filter_code (join [cr; nl] lines) = join [nl] lines.
Proof.
  intros lines.
  assert (Forall no_linebreak lines) as Hnb
    by (repeat constructor; by vm_compute).
  assert (Forall (λ l, is_fence l = false) lines) as Hfence
    by (repeat constructor; by vm_compute).
  assert (last lines ≠ Some []) as Hlast by by vm_compute.
  split; [done|]. split; [done|]. split; [done|].
  exact (proj2 (filter_code_clean_text lines Hnb Hfence Hlast)).
Defined.

(** An occurrence of [w] in a text that holds a character [c] foreign to [w]
    lies before that character or after it. *)
Lemma occurrence_beside (x w y a b : str) (c : char) :
  x ++ w ++ y = a ++ c :: b → c ∉ w →
  (∃ z, a = x ++ w ++ z) ∨ (length a < length x)%nat.
Proof.
  revert a. induction x as [|d x IH]; intros a Heq Hc.
  - simpl in Heq. apply app_eq_inv in Heq as [(k & Hw & Hb)|(k & Ha & Hy)].
    + destruct k as [|e k].
      * left. exists []. by rewrite Hw, !app_nil_r.
      * exfalso. apply Hc. rewrite Hw. injection Hb as -> _.
        apply elem_of_app. right. by left.
    + left. exists k. by rewrite Ha.
  - destruct a as [|e a]; [right; simpl; lia|].
    injection Heq as -> Heq. destruct (IH a Heq Hc) as [(z & ->)|Hlt].
    + left. by exists z.
    + right. simpl. lia.
Qed.

Lemma format_bash_first_block (process : CompletedProcess) :
  ¬ occurs_in (close_tag (lit "bash")) (args process) →
  ∃ post,
    first_tagged_block (lit "bash") (_format_bash_execution_result process)
      [] ([nl] ++ args process ++ [nl]) post.
Proof.
  intros Hfree. eexists. split.
  - unfold tagged_block, _format_bash_execution_result.
    change (open_tag (lit "bash")) with (lit "<bash>").
    change (close_tag (lit "bash")) with (lit "</bash>").
    rewrite <-!app_assoc. reflexivity.
  - intros pre' inner' post' Hb. destruct pre' as [|c pre']; [|left; simpl; lia].
    right. split; [done|].
    unfold tagged_block, _format_bash_execution_result in Hb.
    change (open_tag (lit "bash")) with (lit "<bash>") in Hb.
    rewrite app_nil_l in Hb. apply app_inv_head in Hb.
    destruct inner' as [|c inner']; [by vm_compute in Hb|].
    cbn [app] in Hb. injection Hb as <- Hb. symmetry in Hb.
    apply (occurrence_beside inner' (close_tag (lit "bash")) post'
             (args process) _ nl) in Hb as [(z & Hz)|Hlt].
    + exfalso. apply Hfree. by exists inner', z.
    + rewrite !length_app. simpl. lia.
    + vm_compute. intros Hin. apply list_elem_of_In in Hin. simpl in Hin.
      intuition congruence.
Qed.

(** X5: a command record that is read back with the tag [bash] gives the
    invocation it was formatted from, trimmed, provided the invocation does
    not itself contain the closing tag. *)
Theorem format_then_parse_bash (process : CompletedProcess) :
  ¬ occurs_in (close_tag (lit "bash")) (args process) →
  _parse_tag (_format_bash_execution_result process) (lit "bash")
  = Some (strip (args process)).
Proof.
  intros Hfree. destruct (format_bash_first_block process Hfree) as (post & Hfirst).
  destruct (parse_tag_plain_cases (_format_bash_execution_result process)
              (lit "bash") bash_is_plain)
    as [(pre' & inner' & post' & Hfirst' & Heq)|[Hnone _]].
  - rewrite Heq.
    rewrite (first_tagged_block_unique _ _ _ _ _ _ _ _ Hfirst' Hfirst).
    f_equal. apply strip_all_space; by repeat constructor.
  - destruct Hfirst as [Hb _]. by apply Hnone in Hb.
Qed.

Lemma format_then_parse_bash_witness :
  let process := {| args := lit "ls -l /src "; returncode := 2;
                    stdout := []; stderr := lit "ls: cannot access" |} in
  ¬ occurs_in (close_tag (lit "bash")) (args process)
  ∧ _parse_tag (_format_bash_execution_result process) (lit "bash")
    = Some (lit "ls -l /src").
Proof.
  intros process.
  assert (¬ occurs_in (close_tag (lit "bash")) (args process)) as Hfree.
  { intros (x & y & Hxy).
    assert (60%N ∈ args process) as Hin.
    { rewrite Hxy. apply elem_of_app. right. apply elem_of_app. left.
      apply list_elem_of_In. vm_compute. tauto. }
    apply list_elem_of_In in Hin. vm_compute in Hin. intuition congruence. }
  split; [done|].
  exact (format_then_parse_bash process Hfree).
Defined.

Section Rounds.
Context {Sandbox LLM Prompt : Type}.
Context (build : LLM → str → Prompt).

(** X6: in one round the tool runs at most once, and only on a command that
    is not empty, has no white space around it and occurs in the reply as it
    is; in that case nothing is logged. Otherwise the sandbox is left as it
    was and exactly one record is logged, at warning level. *)
Theorem container_handle_bash_command_executes_trimmed
    (self : BaseAgent (Sandbox := Sandbox)) (cur_round : Z) (response : str)
    (tool : BaseTool (Sandbox := Sandbox)) (w : World (Sandbox := Sandbox)) :
  ∃ prompt w',
    _container_handle_bash_command build self cur_round response tool w
    = Some (prompt, w')
    ∧ ((∃ command,
          command ≠ [] ∧ trimmed command ∧ occurs_in command response
          ∧ sandbox w' = (execute tool command (sandbox w)).2
          ∧ log_records w' = log_records w)
       ∨ (sandbox w' = sandbox w
          ∧ ∃ msg, log_records w' = log_records w ++ [(WARNING, msg)])).
Proof.
  destruct (_parse_tag response (lit "bash")) as [command|] eqn:Hparse.
  - destruct (parse_tag_shape response (lit "bash") command
                bash_is_plain Hparse) as (Hocc & Htrim & _).
    unfold _container_handle_bash_command. rewrite Hparse. simpl.
    destruct command as [|c command]; simpl.
    + eexists _, _. split; [done|]. right. split; [done|]. by eexists.
    + destruct (execute tool (c :: command) (sandbox w)) as [process box] eqn:He.
      eexists _, _. split; [done|]. left. exists (c :: command).
      split; [done|]. split; [done|]. split; [done|]. by rewrite He.
  - destruct (parse_tag_plain_cases response (lit "bash") bash_is_plain)
      as [(? & ? & ? & _ & Heq)|[_ Heq]]; congruence.
Qed.

End Rounds.

End AgentExtra.

(** * Further properties of the orchestrator *)

Module OrchestratorExtra.
Import Py Orchestrator OrchestratorFacts ArgumentProps.

Lemma elem_of_concat {A : Type} (x : A) (ls : list (list A)) :
  x ∈ concat ls ↔ ∃ l, x ∈ l ∧ l ∈ ls.
Proof.
  induction ls as [|l ls IH]; simpl.
  - split; [by intros ?%elem_of_nil|]. by intros (? & _ & ?%elem_of_nil).
  - rewrite elem_of_app, IH. split.
    + intros [Hx|(l' & Hx & Hl')]; [exists l|exists l']; split; auto;
        [by left|by right].
    + intros (l' & Hx & [->|Hl']%elem_of_cons); [by left|right; eauto].
Qed.

Section Configs.
Context `{Collaborators}.

(** X7: the configs [get_experiment_configs] returns all carry the arguments
    it was given, and each benchmark comes from a descriptor: the benchmark
    file if one is given, whatever the directory holds, and otherwise a file
    of the directory whose name ends in [.yaml] or [yml]. Without a benchmark
    file, every benchmark of every such file of the directory is among the
    configs, and nothing is printed. *)
Theorem get_experiment_configs_sources (args : Namespace)
    (configs : list (Benchmark * Namespace)) (w w' : World) :
  get_experiment_configs args w = (Ok configs, w') →
  Forall (λ config, config.2 = args) configs
  ∧ (truthy_opt (benchmark_yaml args) = true →
       configs = (λ b, (b, args))
                   <$> Benchmark_from_yaml (str_of_opt (benchmark_yaml args)))
  ∧ (truthy_opt (benchmark_yaml args) = false →
       w' = w
       ∧ ∀ b, (b, args) ∈ configs ↔
           ∃ directory file,
             benchmarks_directory args = Some directory
             ∧ file ∈ listdir (Some directory)
             ∧ is_yaml_name file = true
             ∧ b ∈ Benchmark_from_yaml (Path.join directory file)).
Proof.
  unfold get_experiment_configs.
  destruct (truthy_opt (benchmark_yaml args)) eqn:Hyaml.
  - intros [= <- _]. split; [|split; [|done]].
    + apply Forall_fmap, Forall_forall. done.
    + intros _. simpl. by rewrite app_nil_r.
  - destruct (benchmarks_directory args) as [directory|] eqn:Hdir.
    + intros [= <- <-]. split; [|split; [done|split; [done|]]].
      { apply Forall_fmap, Forall_forall. done. }
      intros b. rewrite list_elem_of_fmap. split.
      * intros (b' & [= <-] & Hb). apply elem_of_concat in Hb as (bs & Hb & Hbs).
        apply list_elem_of_fmap in Hbs as (path & -> & Hpath).
        apply list_elem_of_fmap in Hpath as (file & -> & Hfile).
        apply list_elem_of_filter in Hfile as [Hname Hfile].
        by exists directory, file.
      * intros (directory' & file & [= <-] & Hfile & Hname & Hb).
        exists b. split; [done|]. apply elem_of_concat.
        exists (Benchmark_from_yaml (Path.join directory file)). split; [done|].
        apply list_elem_of_fmap. exists (Path.join directory file). split; [done|].
        apply list_elem_of_fmap. exists file. split; [done|].
        by apply list_elem_of_filter.
    + destruct (filter _ (listdir None)) eqn:Hfiles; [|done].
      intros [= <- <-]. split; [constructor|]. split; [done|]. split; [done|].
      intros b. split; [by intros ?%elem_of_nil|]. by intros (? & ? & ? & _).
Qed.

End Configs.

Lemma get_experiment_configs_sources_witness :
  get_experiment_configs (H := Demo.collaborators) Demo.args0 Demo.w0
  = (Ok [({| id := lit "benchmarks/png.yaml"; project := lit "libpng";
             function_name := lit "benchmarks/png.yaml";
             function_signature := lit "benchmarks/png.yaml" |}, Demo.args0);
         ({| id := lit "benchmarks/old.notyml"; project := lit "libpng";
             function_name := lit "benchmarks/old.notyml";
             function_signature := lit "benchmarks/old.notyml" |}, Demo.args0)],
     Demo.w0)
  ∧ Forall (λ config, config.2 = Demo.args0)
      [({| id := lit "benchmarks/png.yaml"; project := lit "libpng";
           function_name := lit "benchmarks/png.yaml";
           function_signature := lit "benchmarks/png.yaml" |}, Demo.args0);
       ({| id := lit "benchmarks/old.notyml"; project := lit "libpng";
           function_name := lit "benchmarks/old.notyml";
           function_signature := lit "benchmarks/old.notyml" |}, Demo.args0)].
Proof.
  split; [by vm_compute|].
  exact (proj1 (get_experiment_configs_sources (H := Demo.collaborators)
                  Demo.args0 _ Demo.w0 Demo.w0 eq_refl)).
Defined.


Section Validation.
Context `{Collaborators}.

Lemma accepted_conditions (args : Namespace) :
  accepted args = true ↔
  0 ≤ num_samples args
  ∧ (0 <= temperature args)%Q ∧ (temperature args <= 2)%Q
  ∧ (truthy_opt (benchmark_yaml args) = true →
       is_yaml_name (str_of_opt (benchmark_yaml args)) = true)
  ∧ truthy_opt (benchmark_yaml args) ≠ truthy_opt (benchmarks_directory args)
  ∧ isdir (template_directory args) = true
  ∧ truthy (cloud_experiment_name args) = truthy (cloud_experiment_bucket args).
Proof.
  unfold accepted. rewrite !andb_true_iff, !orb_true_iff, andb_true_iff.
  rewrite Z.eqb_eq, Z.ltb_lt, Qeq_bool_iff, !Qle_bool_iff, negb_true_iff.
  rewrite eqb_true_iff.
  split.
  - intros (((((Hn & Ht) & Hy) & Hx) & Hd) & Hc).
    split; [lia|]. split; [|split; [|split; [|split; [|done]]]].
    + destruct Ht as [Ht|[_ Ht]]; [by rewrite Ht|done].
    + destruct Ht as [Ht|[Ht _]]; [by rewrite Ht|done].
    + intros Hgiven. destruct Hy as [Hy|Hy]; [congruence|done].
    + by destruct (truthy_opt (benchmark_yaml args)),
           (truthy_opt (benchmarks_directory args)).
  - intros (Hn & Ht0 & Ht2 & Hy & Hx & Hd & Hc).
    repeat split; auto.
    + lia.
    + destruct (truthy_opt (benchmark_yaml args)); auto.
    + by destruct (truthy_opt (benchmark_yaml args)),
           (truthy_opt (benchmarks_directory args)).
Qed.

(** X9: [parse_args] returns a namespace exactly when [argparse] produced it
    and the sample count is not negative, the temperature lies between 0 and
    2, a given benchmark file has a name ending in [.yaml] or [yml], exactly
    one of the benchmark file and the benchmarks directory is given, the
    template directory exists, and the cloud experiment name and bucket are
    both given or both absent. It prints and changes nothing. *)
Theorem parse_args_accepts_exactly (argv : list str) (args : Namespace)
    (w w' : World) :
  parse_args argv w = (Ok args, w') ↔
  ArgumentParser_parse_args argv = inr args ∧ w' = w
  ∧ 0 ≤ num_samples args
  ∧ (0 <= temperature args)%Q ∧ (temperature args <= 2)%Q
  ∧ (truthy_opt (benchmark_yaml args) = true →
       is_yaml_name (str_of_opt (benchmark_yaml args)) = true)
  ∧ truthy_opt (benchmark_yaml args) ≠ truthy_opt (benchmarks_directory args)
  ∧ isdir (template_directory args) = true
  ∧ truthy (cloud_experiment_name args) = truthy (cloud_experiment_bucket args).
Proof.
  split.
  - intros Hparse.
    destruct (ArgumentParser_parse_args argv) as [code|args0] eqn:Hargv.
    { unfold parse_args in Hparse. by rewrite Hargv in Hparse. }
    pose proof (parse_args_accepted argv args0 w Hargv) as Hcases.
    destruct (accepted args0) eqn:Hacc.
    + rewrite Hcases in Hparse. injection Hparse as <- <-.
      split; [done|]. split; [done|]. by apply accepted_conditions.
    + destruct Hcases as [msg Hcases]. congruence.
  - intros (Hargv & -> & Hconds).
    pose proof (parse_args_accepted argv args w Hargv) as Hcases.
    by rewrite (proj2 (accepted_conditions args) Hconds) in Hcases.
Qed.





End Validation.

Section Promotion.
Context `{Collaborators}.

Lemma promote_one_effects (save_bucket label rand_id : str) (r : Result)
    (w : World) :
  ∃ w', promote_one save_bucket label rand_id r w = (Ok (), w')
    ∧ uploads w'
      = uploads w ++ option_list (promotion save_bucket label rand_id r)
    ∧ logging w'
      = logging w
        ++ (upload_record <$> option_list (promotion save_bucket label rand_id r))
    ∧ stdout w' = stdout w ∧ stderr w' = stderr w ∧ started w' = started w.
Proof.
  unfold promote_one, promotion. destruct (result r) as [aggregated|?].
  - destruct (positive (max_line_coverage_diff aggregated)).
    + by eexists.
    + eexists. split; [done|]. simpl. by rewrite !app_nil_r.
  - eexists. split; [done|]. simpl. by rewrite !app_nil_r.
Qed.

Lemma promote_all_effects (save_bucket label rand_id : str)
    (results : list Result) (w : World) :
  ∃ w', for_each results (promote_one save_bucket label rand_id) w = (Ok (), w')
    ∧ uploads w'
      = uploads w ++ omap (promotion save_bucket label rand_id) results
    ∧ logging w'
      = logging w
        ++ (upload_record <$> omap (promotion save_bucket label rand_id) results)
    ∧ stdout w' = stdout w ∧ stderr w' = stderr w ∧ started w' = started w.
Proof.
  revert w. induction results as [|r results IH]; intros w.
  - exists w. simpl. by rewrite !app_nil_r.
  - destruct (promote_one_effects save_bucket label rand_id r w)
      as (w1 & H1 & Hup1 & Hlog1 & Hout1 & Herr1 & Hst1).
    destruct (IH w1) as (w2 & H2 & Hup2 & Hlog2 & Hout2 & Herr2 & Hst2).
    exists w2. simpl for_each. rewrite (bind_Ok _ _ _ _ _ H1), H2.
    split; [done|].
    rewrite Hup2, Hup1, Hlog2, Hlog1, Hout2, Hout1, Herr2, Herr1, Hst2, Hst1.
    simpl. destruct (promotion save_bucket label rand_id r); simpl;
      by rewrite <-?app_assoc, ?app_nil_r.
Qed.

(** X11: [_save_best_target] logs one record at level INFO for every upload,
    in the order of the uploads, naming the file, the bucket and the key;
    every upload goes to the bucket it was given, under a key that starts
    with [llm_generated_targets/] and the project; it prints nothing and
    starts no experiment. With no result to promote it uploads and logs
    nothing. *)
Theorem save_best_target_records (results : list Result)
    (save_bucket exp_name : str) (w : World) :
  ∃ w' added,
    _save_best_target results save_bucket exp_name w = (Ok (), w')
    ∧ uploads w' = uploads w ++ added
    ∧ logging w' = logging w ++ (upload_record <$> added)
    ∧ (∀ bucket key file, (bucket, key, file) ∈ added →
         bucket = save_bucket
         ∧ ∃ r rest, r ∈ results
             ∧ key = lit "llm_generated_targets/" ++ project (benchmark r)
                     ++ lit "/" ++ rest)
    ∧ ((∀ r a, r ∈ results → result r = Aggregated a →
          (max_line_coverage_diff a <= 0)%Q) → added = [])
    ∧ stdout w' = stdout w ∧ stderr w' = stderr w ∧ started w' = started w.
Proof.
  destruct (promote_all_effects save_bucket (run_label exp_name)
              (before_first 45%N (uuid4 (uuid_draws w))) results
              (draw_uuid4 w).2)
    as (w' & Hrun & Hup & Hlog & Hout & Herr & Hst).
  exists w', (omap (promotion save_bucket (run_label exp_name)
                      (before_first 45%N (uuid4 (uuid_draws w)))) results).
  split; [unfold _save_best_target; by erewrite bind_Ok|].
  split; [done|]. split; [done|]. split; [|split; [|done]].
  - intros bucket key file Hin. apply list_elem_of_omap in Hin as (r & Hr & Hu).
    unfold promotion in Hu. destruct (result r) as [a|]; [|done].
    destruct (positive (max_line_coverage_diff a)); [|done].
    injection Hu as <- <- <-. split; [done|]. exists r. eexists. split; [done|].
    unfold save_name. reflexivity.
  - intros Hnone.
    destruct (omap _ results) as [|u rest] eqn:Hadded; [done|]. exfalso.
    assert (u ∈ omap (promotion save_bucket (run_label exp_name)
                        (before_first 45%N (uuid4 (uuid_draws w)))) results)
      as Hin by (rewrite Hadded; left).
    apply list_elem_of_omap in Hin as (r & Hr & Hu).
    apply PromotionProps.promotion_Some in Hu as (a & Ha & Hlt & _).
    eapply Qlt_not_le; [exact Hlt|]. by eapply Hnone.
Qed.

End Promotion.

Section Traces.
Context `{Collaborators}.

Lemma run_experiments_effects (b : Benchmark) (args : Namespace) (w : World) :
  ∃ w', run_experiments b args w = (Ok (experiment_result b args), w')
    ∧ stdout w' = stdout w ∧ started w' = started w ++ [id b]
    ∧ uploads w' = uploads w ∧ uuid_draws w' = uuid_draws w
    ∧ logging w' = logging w.
Proof.
  unfold run_experiments, run_experiments_try, experiment_result.
  destruct (experiment b args) as [e|aggregated]; eexists; split; try done.
Qed.

Lemma print_experiment_result_effects (r : Result) (w : World) :
  ∃ w', _print_experiment_result r w = (Ok (), w')
    ∧ stdout w' = stdout w ++ [stream_report r] ∧ started w' = started w
    ∧ uploads w' = uploads w ∧ uuid_draws w' = uuid_draws w
    ∧ logging w' = logging w.
Proof. by eexists. Qed.

(** One experiment, run and reported. *)
Lemma run_and_report (b : Benchmark) (args : Namespace) (w : World) :
  ∃ w',
    (run_experiments b args ≫= λ r, _print_experiment_result r ≫= λ _, mret r) w
    = (Ok (experiment_result b args), w')
    ∧ stdout w' = stdout w ++ [stream_report (experiment_result b args)]
    ∧ started w' = started w ++ [id b]
    ∧ uploads w' = uploads w ∧ uuid_draws w' = uuid_draws w
    ∧ logging w' = logging w.
Proof.
  destruct (run_experiments_effects b args w)
    as (w1 & H1 & Hout1 & Hst1 & Hup1 & Hid1 & Hlog1).
  destruct (print_experiment_result_effects (experiment_result b args) w1)
    as (w2 & H2 & Hout2 & Hst2 & Hup2 & Hid2 & Hlog2).
  exists w2. rewrite (bind_Ok _ _ _ _ _ H1), (bind_Ok _ _ _ _ _ H2).
  split; [done|]. by rewrite Hout2, Hout1, Hst2, Hst1, Hup2, Hup1, Hid2, Hid1,
    Hlog2, Hlog1.
Qed.



(** X13: a pool size below one, other than the sequential size 1, makes the
    run fail with a [ValueError] before any task is submitted: with
    [NUM_EXP] zero or negative nothing runs and nothing is printed. *)
Theorem run_all_no_workers (NUM_EXP : Z) (args : Namespace)
    (configs : list (Benchmark * Namespace)) (schedule : list nat) (w : World) :
  NUM_EXP < 1 →
  run_all NUM_EXP args configs schedule w
  = (Raise (ValueError (lit "Number of processes must be at least 1")), w).
Proof.
  intros HP. unfold run_all, run_pool, Pool_new.
  destruct (Z.eqb_spec NUM_EXP 1) as [?|_]; [lia|].
  by destruct (Z.ltb_spec NUM_EXP 1) as [_|?]; [|lia].
Qed.

Lemma completed_configs_snoc (configs : list (Benchmark * Namespace))
    (order : list nat) (k : nat) (config : Benchmark * Namespace) :
  configs !! k = Some config →
  completed_configs configs (order ++ [k])
  = completed_configs configs order ++ [config].
Proof.
  intros Hk. unfold completed_configs. rewrite omap_app. simpl. by rewrite Hk.
Qed.

Lemma take_max {A : Type} (a b : nat) (l : list A) :
  take a l ++ drop a (take b l) = take (a `max` b) l.
Proof.
  destruct (le_lt_dec a b) as [Hab|Hba].
  - rewrite Nat.max_r by done. rewrite <-(take_drop a (take b l)) at 2.
    by rewrite take_take, Nat.min_l.
  - rewrite Nat.max_l by lia. rewrite drop_ge, app_nil_r; [done|].
    rewrite length_take. lia.
Qed.

Lemma complete_trace (configs : list (Benchmark * Namespace)) (w0 : World)
    (order : list nat) (k : nat) (p : Pool) (w : World) :
  pool_trace configs w0 order p w →
  ∃ p' w' new,
    complete k p w = (Ok p', w')
    ∧ pool_trace configs w0 (order ++ new) p' w'
    ∧ new `sublist_of` [k]
    ∧ (∀ h r, completed p !! h = Some r → completed p' !! h = Some r).
Proof.
  intros (Htasks & Hnodup & Hdone & Htaken & Hbound & Hst & Hout & Hup & Hid).
  unfold complete. rewrite Htasks.
  destruct (configs !! k) as [[b args]|] eqn:Hk.
  - destruct (completed p !! k) as [r|] eqn:Hr.
    + exists p, w, []. rewrite app_nil_r. split; [done|]. split; [done|].
      split; [apply sublist_nil_l|done].
    + destruct (take_tasks_Ok (S k) p w)
        as (w3 & H3 & Hst3 & Hout3 & Hup3 & Hid3 & _).
      destruct (run_experiments_try_Ok b args w3)
        as (w1 & H1 & Hout1 & Hst1 & Hup1 & Hid1 & _).
      destruct (print_experiment_result_effects (experiment_result b args) w1)
        as (w2 & H2 & Hout2 & Hst2 & Hup2 & Hid2 & _).
      eexists _, w2, [k].
      rewrite (bind_Ok _ _ _ _ _ H3), (bind_Ok _ _ _ _ _ H1), (bind_Ok _ _ _ _ _ H2).
      split; [done|]. split; [|split; [done|]].
      * assert (k ∉ order) as Hfresh.
        { intros Hin. apply Hdone in Hin as [? ?]. congruence. }
        assert (k < length configs)%nat as Hlt by by eapply lookup_lt_Some.
        unfold pool_trace. simpl.
        rewrite (completed_configs_snoc _ _ _ _ Hk), !fmap_app. simpl.
        split; [done|]. split.
        { apply NoDup_app. split; [done|]. split; [|apply NoDup_singleton].
          intros x Hx Hk'%list_elem_of_singleton. by subst x. }
        split.
        { intros h. rewrite elem_of_app, list_elem_of_singleton.
          destruct (decide (k = h)) as [->|Hne].
          - rewrite lookup_insert_eq. split; [by eexists|by right].
          - rewrite lookup_insert_ne by done. rewrite <-Hdone.
            split; [intros [?|?]; [done|congruence]|by left]. }
        split.
        { intros h [Hin|Hk'%list_elem_of_singleton]%elem_of_app;
            [apply Htaken in Hin|]; lia. }
        split; [lia|].
        rewrite Hst2, Hst1, Hst3, Hst, Hout2, Hout1, Hout3, Hout, Hup2, Hup1,
          Hup3, Hid2, Hid1, Hid3, Htasks.
        rewrite <-!app_assoc, <-fmap_app, take_max. done.
      * simpl. intros h r Hh. rewrite lookup_insert_ne; [done|]. congruence.
  - exists p, w, []. rewrite app_nil_r. split; [by destruct (completed p !! k)|].
    split; [done|]. split; [apply sublist_nil_l|done].
Qed.

Lemma task_get_trace (configs : list (Benchmark * Namespace)) (w0 : World)
    (h : nat) (schedule : list nat) :
  ∀ order p w r schedule' p' w',
    pool_trace configs w0 order p w →
    task_get h schedule p w = (Ok (r, schedule', p'), w') →
    ∃ added consumed,
      schedule = consumed ++ schedule'
      ∧ added `sublist_of` consumed
      ∧ pool_trace configs w0 (order ++ added) p' w'
      ∧ h ∈ order ++ added.
Proof.
  induction schedule as [|k schedule IH];
    intros order p w r schedule' p' w' Htrace Hget.
  - simpl in Hget. destruct (completed p !! h) as [r0|] eqn:Hh; [|done].
    injection Hget as <- <- <- <-. exists [], []. rewrite !app_nil_r.
    split; [done|]. split; [apply sublist_nil_l|]. split; [done|].
    destruct Htrace as (_ & _ & Hdone & _). apply Hdone. by eexists.
  - simpl in Hget. destruct (completed p !! h) as [r0|] eqn:Hh.
    + injection Hget as <- <- <- <-. exists [], []. rewrite !app_nil_r.
      split; [done|]. split; [apply sublist_nil_l|]. split; [done|].
      destruct Htrace as (_ & _ & Hdone & _). apply Hdone. by eexists.
    + destruct (complete_trace configs w0 order k p w Htrace)
        as (p1 & w1 & new & H1 & Htrace1 & Hnew & _).
      rewrite (bind_Ok _ _ _ _ _ H1) in Hget.
      destruct (IH _ _ _ _ _ _ _ Htrace1 Hget)
        as (added & consumed & -> & Hadded & Htrace' & Hin).
      exists (new ++ added), (k :: consumed). rewrite app_assoc.
      split; [done|]. split; [|done].
      by apply (sublist_app new [k] added consumed).
Qed.

Lemma gather_trace (configs : list (Benchmark * Namespace)) (w0 : World)
    (handles : list nat) :
  ∀ schedule order p w results w',
    pool_trace configs w0 order p w →
    gather handles schedule p w = (Ok results, w') →
    ∃ added p',
      added `sublist_of` schedule
      ∧ pool_trace configs w0 (order ++ added) p' w'
      ∧ ∀ h, h ∈ handles → h ∈ order ++ added.
Proof.
  induction handles as [|h handles IH];
    intros schedule order p w results w' Htrace Hgather.
  - injection Hgather as <- <-. exists [], p. rewrite app_nil_r.
    split; [apply sublist_nil_l|]. split; [done|]. by intros ? ?%elem_of_nil.
  - simpl in Hgather.
    destruct (task_get h schedule p w) as [[[[r schedule1] p1]| |] w1] eqn:Hget;
      try (unfold mbind, M_bind in Hgather; rewrite Hget in Hgather; done).
    rewrite (bind_Ok _ _ _ _ _ Hget) in Hgather.
    destruct (task_get_trace configs w0 h schedule _ _ _ _ _ _ _ Htrace Hget)
      as (added1 & consumed & -> & Hadded1 & Htrace1 & Hin1).
    destruct (gather handles schedule1 p1 w1) as [[rs| |] w2] eqn:Hrest;
      try (unfold mbind, M_bind in Hgather; rewrite Hrest in Hgather; done).
    rewrite (bind_Ok _ _ _ _ _ Hrest) in Hgather. injection Hgather as <- <-.
    destruct (IH _ _ _ _ _ _ Htrace1 Hrest) as (added2 & p2 & Hadded2 & Htrace2 & Hin2).
    exists (added1 ++ added2), p2. rewrite app_assoc.
    split; [by apply sublist_app|]. split; [done|].
    intros h' [->|Hh']%elem_of_cons; [|by apply Hin2].
    rewrite <-app_assoc in *. apply elem_of_app in Hin1 as [?|?];
      rewrite !elem_of_app; auto.
Qed.

Lemma completed_configs_seq (configs : list (Benchmark * Namespace)) :
  completed_configs configs (seq 0 (length configs)) = configs.
Proof.
  unfold completed_configs.
  assert (∀ n, (n ≤ length configs)%nat →
    omap (λ h, configs !! h) (seq 0 n) = take n configs) as Htake.
  { induction n as [|n IH]; intros Hn; [done|].
    rewrite seq_S, omap_app, IH by lia. simpl.
    destruct (lookup_lt_is_Some_2 configs n ltac:(lia)) as [c Hc].
    rewrite Hc. by erewrite take_S_r. }
  rewrite Htake by done. apply firstn_all.
Qed.

Lemma run_pool_completion_order (NUM_EXP : Z) (args : Namespace)
    (configs : list (Benchmark * Namespace)) (schedule : list nat)
    (results : list Result) (w w' : World) :
  NUM_EXP ≠ 1 →
  run_all NUM_EXP args configs schedule w = (Ok results, w') →
  results = result_of <$> configs
  ∧ started w' = started w ++ ((λ c, id c.1) <$> configs)
  ∧ ∃ order,
      order ≡ₚ seq 0 (length configs)
      ∧ order `sublist_of` schedule
      ∧ completed_configs configs order ≡ₚ configs
      ∧ stdout w'
        = stdout w
          ++ ((λ c, stream_report (result_of c)) <$> completed_configs configs order)
      ∧ uploads w' = uploads w ∧ uuid_draws w' = uuid_draws w.
Proof.
  intros HP Hrun. unfold run_all, run_pool, Pool_new in Hrun.
  destruct (Z.eqb_spec NUM_EXP 1) as [?|_]; [done|].
  destruct (Z.ltb_spec NUM_EXP 1) as [?|_]; [done|].
  erewrite bind_Ok in Hrun; [|done].
  destruct (submit_all (delay args) configs
              {| tasks := []; taken := 0; completed := ∅ |} w)
    as [[submitted| |] w1] eqn:Hsubmit;
    try (unfold mbind, M_bind in Hrun; rewrite Hsubmit in Hrun; done).
  rewrite (bind_Ok _ _ _ _ _ Hsubmit) in Hrun.
  apply submit_all_inv in Hsubmit as [-> ->]. simpl in Hrun.
  assert (pool_trace configs w []
            {| tasks := configs; taken := 0; completed := ∅ |} w) as Htrace0.
  { unfold pool_trace. simpl. rewrite !app_nil_r.
    split; [done|]. split; [constructor|]. split.
    { intros h. rewrite lookup_empty.
      split; [by intros ?%elem_of_nil|by intros [? ?]]. }
    split; [by intros ? ?%elem_of_nil|]. split; [lia|done]. }
  destruct (gather_trace configs w _ _ _ _ _ _ _ Htrace0 Hrun)
    as (order & p' & Hsub & Htrace & Hall).
  simpl in Htrace, Hall.
  destruct Htrace
    as (Htasks & Hnodup & Hdone & Htaken & Hbound & Hst & Hout & Hup & Hid).
  assert (order ≡ₚ seq 0 (length configs)) as Hperm.
  { apply NoDup_Permutation; [done|apply NoDup_seq|].
    intros h. rewrite elem_of_seq. split.
    - intros Hh. apply Htaken in Hh. lia.
    - intros Hh. apply Hall, elem_of_seq. lia. }
  assert (take (taken p') configs = configs) as Hfull.
  { destruct (decide (length configs = 0)%nat) as [Hnil|Hsome].
    - destruct configs; [by rewrite take_nil|done].
    - apply take_ge.
      assert (length configs - 1 ∈ order)%nat as Hlast
        by (apply Hall, elem_of_seq; lia).
      apply Htaken in Hlast. lia. }
  split; [|split].
  - assert (pool_consistent {| tasks := configs; taken := 0; completed := ∅ |})
      as Hcons.
    { intros h r. simpl. by rewrite lookup_empty. }
    destruct (gather_Ok (seq 0 (length configs)) schedule
                {| tasks := configs; taken := 0; completed := ∅ |} w Hcons)
      as (results' & w'' & Hgather & Hresults).
    + apply Forall_seq. simpl. lia.
    + intros h Hh. left. simpl in Hh.
      eapply elem_of_sublist; [|exact Hsub]. apply Hall, elem_of_seq. lia.
    + rewrite Hgather in Hrun. injection Hrun as <- _.
      by apply Forall2_seq_results.
  - by rewrite Hst, Hfull.
  - exists order. split; [done|]. split; [done|]. split; [|done].
    unfold completed_configs at 1. rewrite Hperm.
    apply reflexive_eq, completed_configs_seq.
Qed.

(** X14: when the worker-pool branch returns, every experiment has run
    exactly once, the workers having taken the tasks in the order of
    submission, whatever the schedule of the workers, also one that names a
    task twice or names no task; the tasks completed in an order that is a
    rearrangement of the handles and follows the schedule, the results were
    reported in that order of completion, one report each, and the results
    come back in submission order. *)
Theorem run_pool_trace (NUM_EXP : Z) (args : Namespace)
    (configs : list (Benchmark * Namespace)) (schedule : list nat)
    (results : list Result) (w w' : World) :
  NUM_EXP ≠ 1 →
  run_all NUM_EXP args configs schedule w = (Ok results, w') →
  results = result_of <$> configs
  ∧ started w' = started w ++ ((λ c, id c.1) <$> configs)
  ∧ ∃ order,
      order ≡ₚ seq 0 (length configs)
      ∧ order `sublist_of` schedule
      ∧ completed_configs configs order ≡ₚ configs
      ∧ stdout w'
        = stdout w
          ++ ((λ c, stream_report (result_of c)) <$> completed_configs configs order)
      ∧ uploads w' = uploads w ∧ uuid_draws w' = uuid_draws w.
Proof. apply run_pool_completion_order. Qed.

Lemma complete_total (k : nat) (p : Pool) (w : World) :
  ∃ p' w', complete k p w = (Ok p', w').
Proof.
  unfold complete. destruct (tasks p !! k) as [[b args]|]; [|by eexists _, _].
  destruct (completed p !! k); [by eexists _, _|].
  destruct (take_tasks_Ok (S k) p w) as (w3 & H3 & _).
  destruct (run_experiments_try_Ok b args w3) as (w1 & H1 & _).
  destruct (print_experiment_result_effects (experiment_result b args) w1)
    as (w2 & H2 & _).
  eexists _, w2.
  by rewrite (bind_Ok _ _ _ _ _ H3), (bind_Ok _ _ _ _ _ H1), (bind_Ok _ _ _ _ _ H2).
Qed.

Lemma task_get_no_raise (h : nat) (schedule : list nat) (p : Pool) (w : World)
    (e : exception) (w' : World) :
  task_get h schedule p w ≠ (Raise e, w').
Proof.
  revert p w. induction schedule as [|k schedule IH]; intros p w; simpl.
  - by destruct (completed p !! h).
  - destruct (completed p !! h); [done|].
    destruct (complete_total k p w) as (p1 & w1 & H1).
    rewrite (bind_Ok _ _ _ _ _ H1). apply IH.
Qed.

Lemma gather_no_raise (handles schedule : list nat) (p : Pool) (w : World)
    (e : exception) (w' : World) :
  gather handles schedule p w ≠ (Raise e, w').
Proof.
  revert schedule p w e w'. induction handles as [|h handles IH];
    intros schedule p w e w'; [done|]. simpl.
  destruct (task_get h schedule p w) as [[[[r schedule1] p1]|e1|] w1] eqn:Hget.
  - rewrite (bind_Ok _ _ _ _ _ Hget).
    destruct (gather handles schedule1 p1 w1) as [[rs|e2|] w2] eqn:Hrest.
    + by rewrite (bind_Ok _ _ _ _ _ Hrest).
    + by apply IH in Hrest.
    + unfold mbind, M_bind. by rewrite Hrest.
  - by apply task_get_no_raise in Hget.
  - unfold mbind, M_bind. by rewrite Hget.
Qed.

(** X15: the orchestrator sets no time limit of its own: if the workers
    never finish one of the submitted tasks, the worker-pool branch does not
    return; and when [time.sleep] accepts the pause after each submission it
    does not raise either: it stays blocked on that task or on an earlier
    one. *)
Theorem run_pool_blocks_on_missing_task (NUM_EXP : Z) (args : Namespace)
    (configs : list (Benchmark * Namespace)) (schedule : list nat) (h : nat)
    (w : World) :
  1 < NUM_EXP → (h < length configs)%nat → h ∉ schedule →
  (∀ results w', run_all NUM_EXP args configs schedule w ≠ (Ok results, w'))
  ∧ (sleepable (length configs) (delay args) = true →
     ∃ w', run_all NUM_EXP args configs schedule w = (Blocked, w')).
Proof.
  intros HP Hh Hmissing.
  assert (∀ results w', run_all NUM_EXP args configs schedule w ≠ (Ok results, w'))
    as Hnever.
  { intros results w' Hrun. apply Hmissing.
    assert (NUM_EXP ≠ 1) as Hpool by lia.
    destruct (run_pool_completion_order _ _ _ _ _ _ _ Hpool Hrun)
      as (_ & _ & order & Hperm & Hsub & _).
    eapply elem_of_sublist; [|exact Hsub].
    rewrite Hperm. apply elem_of_seq. lia. }
  split; [exact Hnever|]. intros Hdelay.
  destruct (run_all NUM_EXP args configs schedule w) as [[results|e|] w'] eqn:Hrun.
  - by destruct (Hnever results w').
  - exfalso. unfold run_all, run_pool, Pool_new in Hrun.
    destruct (Z.eqb_spec NUM_EXP 1) as [?|_]; [lia|].
    destruct (Z.ltb_spec NUM_EXP 1) as [?|_]; [lia|].
    erewrite bind_Ok in Hrun; [|done].
    erewrite bind_Ok in Hrun; [|by apply submit_all_Ok].
    by apply gather_no_raise in Hrun.
  - by exists w'.
Qed.


End Traces.

Section Frames.
Context `{Collaborators}.

Lemma keeps_bind {A B : Type} (m : M A) (f : A → M B) :
  keeps_storage m → (∀ a, keeps_storage (f a)) → keeps_storage (m ≫= f).
Proof.
  intros Hm Hf w. unfold mbind, M_bind. specialize (Hm w).
  destruct (m w) as [[a|e|] w1]; simpl in *; [|done..].
  destruct (Hf a w1) as [Hup Hid]. by rewrite Hup, Hid.
Qed.

Lemma keeps_ret {A : Type} (a : A) : keeps_storage (mret a).
Proof. by intros w. Qed.

Lemma keeps_raise {A : Type} (e : exception) : keeps_storage (raise (A := A) e).
Proof. by intros w. Qed.

Lemma keeps_blocked {A : Type} : keeps_storage (blocked (A := A)).
Proof. by intros w. Qed.

Lemma keeps_print (line : str) : keeps_storage (print line).
Proof. by intros w. Qed.

Lemma keeps_print_err (line : str) : keeps_storage (print_err line).
Proof. by intros w. Qed.

Lemma keeps_logging_log (level : Z) (msg : str) :
  keeps_storage (logging_log level msg).
Proof. by intros w. Qed.

Lemma keeps_note_started (b : Benchmark) : keeps_storage (note_started b).
Proof. by intros w. Qed.

Lemma keeps_time_sleep (earlier : nat) (secs : Z) :
  keeps_storage (time_sleep earlier secs).
Proof.
  unfold time_sleep. destruct (_ || _); [by intros w|].
  destruct (secs <? 0); [by intros w|].
  by destruct (clock_nanosleep earlier secs); intros w.
Qed.

Lemma keeps_assert (cond : bool) (msg : str) : keeps_storage (assert cond msg).
Proof. unfold assert. by destruct cond; intros w. Qed.

Lemma keeps_for_each {A : Type} (xs : list A) (body : A → M unit) :
  (∀ x, keeps_storage (body x)) → keeps_storage (for_each xs body).
Proof.
  intros Hbody. induction xs as [|x xs IH]; [apply keeps_ret|].
  simpl. by apply keeps_bind.
Qed.

Create HintDb keeps discriminated.
#[local] Hint Resolve keeps_ret keeps_raise keeps_blocked keeps_print
  keeps_print_err keeps_logging_log keeps_note_started keeps_time_sleep
  keeps_assert : keeps.

Ltac keeps :=
  repeat first
    [ solve [auto with keeps]
    | apply keeps_for_each; intros ?
    | apply keeps_bind; [|intros ?] ].

Lemma keeps_run_experiments_try (b : Benchmark) (args : Namespace) :
  keeps_storage (run_experiments_try b args).
Proof. unfold run_experiments_try. destruct (experiment b args); keeps. Qed.

Lemma keeps_run_experiments (b : Benchmark) (args : Namespace) :
  keeps_storage (run_experiments b args).
Proof.
  unfold run_experiments.
  apply keeps_bind; [apply keeps_note_started|intros _].
  apply keeps_run_experiments_try.
Qed.

Lemma keeps_take_tasks (n : nat) (p : Pool) : keeps_storage (take_tasks n p).
Proof. unfold take_tasks. keeps. Qed.

Lemma keeps_print_experiment_result (r : Result) :
  keeps_storage (_print_experiment_result r).
Proof. apply keeps_print. Qed.

Lemma keeps_print_experiment_results (results : list Result) :
  keeps_storage (_print_experiment_results results).
Proof. unfold _print_experiment_results. keeps. Qed.

#[local] Hint Resolve keeps_run_experiments keeps_run_experiments_try
  keeps_take_tasks keeps_print_experiment_result
  keeps_print_experiment_results : keeps.

Lemma keeps_run_sequential (configs : list (Benchmark * Namespace)) :
  keeps_storage (run_sequential configs).
Proof.
  induction configs as [|[b args] rest IH]; [apply keeps_ret|]. simpl. keeps.
Qed.

Lemma keeps_submit_all (pause : Z) (configs : list (Benchmark * Namespace))
    (p : Pool) :
  keeps_storage (submit_all pause configs p).
Proof.
  revert p. induction configs as [|config rest IH]; intros p; [apply keeps_ret|].
  simpl. apply keeps_bind; [auto with keeps|intros _].
  apply keeps_bind; [apply IH|intros [??]; apply keeps_ret].
Qed.

Lemma keeps_complete (k : nat) (p : Pool) : keeps_storage (complete k p).
Proof.
  unfold complete. destruct (tasks p !! k) as [[b args]|]; [|apply keeps_ret].
  destruct (completed p !! k); keeps.
Qed.

Lemma keeps_task_get (h : nat) (schedule : list nat) (p : Pool) :
  keeps_storage (task_get h schedule p).
Proof.
  revert p. induction schedule as [|k schedule IH]; intros p; simpl.
  - destruct (completed p !! h); keeps.
  - destruct (completed p !! h); [apply keeps_ret|].
    apply keeps_bind; [apply keeps_complete|intros p'; apply IH].
Qed.

Lemma keeps_gather (handles schedule : list nat) (p : Pool) :
  keeps_storage (gather handles schedule p).
Proof.
  revert schedule p. induction handles as [|h handles IH]; intros schedule p;
    [apply keeps_ret|].
  simpl. apply keeps_bind; [apply keeps_task_get|intros [[r schedule'] p']].
  apply keeps_bind; [apply IH|intros ?; apply keeps_ret].
Qed.

Lemma keeps_run_all (NUM_EXP : Z) (args : Namespace)
    (configs : list (Benchmark * Namespace)) (schedule : list nat) :
  keeps_storage (run_all NUM_EXP args configs schedule).
Proof.
  unfold run_all. destruct (NUM_EXP =? 1); [apply keeps_run_sequential|].
  unfold run_pool, Pool_new. apply keeps_bind.
  - destruct (NUM_EXP <? 1); auto with keeps.
  - intros p. apply keeps_bind; [apply keeps_submit_all|intros [??]].
    apply keeps_gather.
Qed.

Lemma keeps_get_experiment_configs (args : Namespace) :
  keeps_storage (get_experiment_configs args).
Proof.
  unfold get_experiment_configs. apply keeps_bind; [|intros ?; apply keeps_ret].
  destruct (truthy_opt (benchmark_yaml args)); [keeps|].
  destruct (benchmarks_directory args); [apply keeps_ret|].
  destruct (filter _ _); auto with keeps.
Qed.

Lemma keeps_parse_args (argv : list str) : keeps_storage (parse_args argv).
Proof.
  intros w. destruct (ArgumentParser_parse_args argv) as [code|args] eqn:Hargv.
  - unfold parse_args. by rewrite Hargv.
  - pose proof (parse_args_accepted argv args w Hargv) as Hcases.
    destruct (accepted args); [by rewrite Hcases|].
    destruct Hcases as [msg ->]. done.
Qed.

(** X16: a run without a save bucket never touches the storage service nor
    the random source, however it ends: with [--cloud-save-bucket] absent
    or empty, [main] uploads nothing and draws no random id, whether it
    finishes, aborts or blocks. *)
Theorem main_without_save_bucket (NUM_EXP : Z) (argv : list str)
    (schedule : list nat) (w : World) :
  (∀ args, ArgumentParser_parse_args argv = inr args →
           cloud_save_bucket args = []) →
  uploads (main NUM_EXP argv schedule w).2 = uploads w
  ∧ uuid_draws (main NUM_EXP argv schedule w).2 = uuid_draws w.
Proof.
  intros Hbucket. unfold main.
  destruct (ArgumentParser_parse_args argv) as [code|args] eqn:Hargv.
  - assert (parse_args argv w = (Raise (SystemExit code), w)) as Hparse
      by (unfold parse_args; by rewrite Hargv).
    by rewrite (bind_Raise _ _ _ _ _ Hparse).
  - pose proof (parse_args_accepted argv args w Hargv) as Hcases.
    destruct (accepted args).
    + rewrite (bind_Ok _ _ _ _ _ Hcases). rewrite (Hbucket args eq_refl).
      simpl truthy. cbv iota.
      apply (keeps_bind (get_experiment_configs args)
               (λ experiment_configs,
                  _ ← print (lit "Running " ++ str_of_int NUM_EXP
                             ++ lit " experiment(s) in parallel.");
                  experiment_results ← run_all NUM_EXP args experiment_configs schedule;
                  _ ← _print_experiment_results experiment_results;
                  mret ()));
        [apply keeps_get_experiment_configs|intros configs].
      apply keeps_bind; [apply keeps_print|intros _].
      apply keeps_bind; [apply keeps_run_all|intros results].
      apply keeps_bind; [apply keeps_print_experiment_results|intros _].
      apply keeps_ret.
    + destruct Hcases as [msg Hparse]. by rewrite (bind_Raise _ _ _ _ _ Hparse).
Qed.

End Frames.

Section EndToEnd.
Context `{Collaborators}.



End EndToEnd.


Lemma main_without_save_bucket_witness :
  (∀ args, Demo.parse [lit "-b"; lit "benchmarks"] = inr args →
           cloud_save_bucket args = [])
  ∧ uploads (main (H := Demo.collaborators) 1 [lit "-b"; lit "benchmarks"]
               [] Demo.w0).2 = []
  ∧ uuid_draws (main (H := Demo.collaborators) 1 [lit "-b"; lit "benchmarks"]
                  [] Demo.w0).2 = 0%nat.
Proof.
  assert (∀ args, Demo.parse [lit "-b"; lit "benchmarks"] = inr args →
                  cloud_save_bucket args = []) as Hbucket.
  { intros args Hargs. vm_compute in Hargs. by injection Hargs as <-. }
  split; [done|].
  exact (main_without_save_bucket (H := Demo.collaborators) 1
           [lit "-b"; lit "benchmarks"] [] Demo.w0 Hbucket).
Defined.

Lemma run_pool_trace_witness :
  let configs := [(Demo.bench "decode", Demo.args0);
                  (Demo.bench "parse", Demo.args0);
                  (Demo.bench "inflate", Demo.args0)] in
  3 ≠ 1
  ∧ ∃ results w' order,
      run_all (H := Demo.collaborators) 3 Demo.args0 configs
        [2; 2; 7; 0; 1]%nat Demo.w0 = (Ok results, w')
      ∧ started w' = [lit "decode"; lit "parse"; lit "inflate"]
      ∧ order ≡ₚ [0; 1; 2]%nat
      ∧ order `sublist_of` [2; 2; 7; 0; 1]%nat.
Proof.
  intros configs. split; [lia|].
  destruct (run_pool_Ok (H := Demo.collaborators) 3 Demo.args0 configs
              [2; 2; 7; 0; 1]%nat Demo.w0) as (w' & Hrun);
    [lia|by vm_compute| |].
  { intros h Hh. unfold configs in Hh. simpl in Hh.
    apply list_elem_of_In. simpl. lia. }
  assert (run_all (H := Demo.collaborators) 3 Demo.args0 configs
            [2; 2; 7; 0; 1]%nat Demo.w0
          = (Ok (result_of (H := Demo.collaborators) <$> configs), w')) as Hall
    by exact Hrun.
  assert (3 ≠ 1) as Hpool by lia.
  destruct (run_pool_trace (H := Demo.collaborators) 3 Demo.args0 configs
              [2; 2; 7; 0; 1]%nat _ Demo.w0 w' Hpool Hall)
    as (_ & Hstarted & order & Hperm & Hsub & _).
  exists (result_of (H := Demo.collaborators) <$> configs), w', order.
  split; [exact Hall|]. split; [exact Hstarted|]. split; [exact Hperm|exact Hsub].
Defined.

Lemma run_pool_blocks_on_missing_task_witness :
  let configs := [(Demo.bench "decode", Demo.args0);
                  (Demo.bench "parse", Demo.args0)] in
  1 < 2 ∧ (1 < length configs)%nat
  ∧ (1%nat ∉ [0%nat; 0%nat])
  ∧ sleepable (H := Demo.collaborators) (length configs) (delay Demo.args0) = true
  ∧ ∃ w', run_all (H := Demo.collaborators) 2 Demo.args0 configs [0; 0]%nat
            Demo.w0 = (Blocked, w').
Proof.
  intros configs.
  assert (1%nat ∉ [0%nat; 0%nat]) as Hmissing.
  { intros Hin. apply list_elem_of_In in Hin. simpl in Hin. lia. }
  assert (1 < 2) as HP by lia.
  assert (1 < length configs)%nat as Hh by (simpl; lia).
  assert (sleepable (H := Demo.collaborators) (length configs) (delay Demo.args0)
          = true) as Hdelay by by vm_compute.
  split; [exact HP|]. split; [exact Hh|]. split; [exact Hmissing|].
  split; [exact Hdelay|].
  exact (proj2 (run_pool_blocks_on_missing_task (H := Demo.collaborators) 2
                  Demo.args0 configs [0; 0]%nat 1 Demo.w0 HP Hh Hmissing) Hdelay).
Defined.

Lemma run_all_no_workers_witness :
  0 < 1
  ∧ run_all (H := Demo.collaborators) 0 Demo.args0
      [(Demo.bench "decode", Demo.args0)] [0%nat] Demo.w0
    = (Raise (ValueError (lit "Number of processes must be at least 1")), Demo.w0).
Proof.
  split; [lia|].
  apply (run_all_no_workers (H := Demo.collaborators)). lia.
Defined.

End OrchestratorExtra.
